(** * seminars/ranges.cpp: the range pipelines of the seminar, embedded and verified

    The development follows [main] of [src/seminars/ranges.cpp]:

    - the records [Point] and [Point3] and the two stream operators;
    - the pipeline [points] (istream view, filter, transform), its traversal
      through [views::drop(1)] into [std::cout] and its second traversal
      into [cached_points];
    - the bounded traversal of [views::iota(0)];
    - the three sorting calls on [cached_points].

    [float] is IEEE-754 binary32, taken from the Standard Library's
    [SpecFloat] at precision 24 and maximal exponent 128.  Standard input is
    a sequence of extraction attempts: the text-to-number conversion of the
    I/O library is kept abstract, each field either converts to a binary32
    value, is no number at all, or is a numeral out of range.  Output is the sequence of items inserted into
    [std::cout].  Loops whose end depends on the data take fuel; the
    theorems give the fuel that suffices. *)

From Stdlib Require Import String Ascii.
From Stdlib Require Import List ZArith Lia Bool.
From Stdlib Require Import Permutation Sorted.
From Stdlib Require Import SpecFloat.
Import ListNotations.

Local Open Scope Z_scope.

(** ** binary32 *)

Module F32.

Definition prec : Z := 24.
Definition emax : Z := 128.

Definition t : Type := spec_float.

Definition valid (f : t) : bool := valid_binary prec emax f.

Definition zero : t := S754_zero false.

(** [a * b] on [float] operands: correctly rounded, to nearest even. *)
Definition mul (a b : t) : t := SFmul prec emax a b.

(** [a < b], [a <= b], [a == b]; all three are false on a NaN operand. *)
Definition ltb (a b : t) : bool := SFltb a b.
Definition leb (a b : t) : bool := SFleb a b.
Definition eqb (a b : t) : bool := SFeqb a b.

Definition is_nan (f : t) : bool :=
  match f with S754_nan => true | _ => false end.

(** The literal [20.0f], that is [0xA00000 * 2^-19]. *)
Definition twenty : t := S754_finite false 10485760 (-19).

(** The value of a zero or finite [float], counted in units of [2^-149],
    the smallest positive [float]; infinities and NaN have none. *)
Definition units (f : t) : option Z :=
  match f with
  | S754_zero _ => Some 0
  | S754_finite s m e => Some ((if s then - Zpos m else Zpos m) * 2 ^ (e + 149))
  | _ => None
  end.

(** [FLT_MAX], the largest finite [float], [(2^24 - 1) * 2^104], and its
    opposite. *)
Definition FLT_MAX : t := SFmax_float prec emax.
Definition neg_FLT_MAX : t := SFopp FLT_MAX.

(** A few more literals, for the concrete runs below. *)
Definition of_small (n : positive) : t := binary_round prec emax false n 0.
Definition one : t := of_small 1.
Definition two : t := of_small 2.
Definition three : t := of_small 3.
Definition six : t := of_small 6.
Definition nan : t := S754_nan.

End F32.

Definition float : Type := F32.t.

(** ** The records *)

(** [struct Point { float x; float y; };] *)
Record Point : Type := mkPoint { Point_x : float; Point_y : float }.

(** [struct Point3 { float x; float y; float z; };] *)
Record Point3 : Type :=
  mkPoint3 { Point3_x : float; Point3_y : float; Point3_z : float }.

(** ** Streams and the world *)

(** One extraction attempt on the input: a field that converts to a
    [float]; text that is not a number; or a numeral too large for a
    [float], such as [1e50] or, [negative], [-1e50]. *)
Inductive token : Type :=
| Num (f : float)
| Junk
| Huge (negative : bool).

(** [std::istream]: what is still to be read, and the fail state
    ([!stream] is true once an extraction has failed; nothing in the
    program clears it). *)
Record istream : Type := mkIstream { pending : list token; failed : bool }.

(** A stream in good state with [ts] still to be read. *)
Definition good (ts : list token) : istream := {| pending := ts; failed := false |}.

(** What is inserted into [std::cout], item by item. *)
Inductive out_item : Type :=
| OFloat (f : float)
| OInt (n : Z)
| OStr (s : string).

Definition newline : string := String (ascii_of_nat 10) EmptyString.

Record world : Type := mkWorld { cin : istream; cout : list out_item }.

(** ** Programs over the world

    A statement either completes with a value and a new world, runs out of
    the fuel given to one of its loops, or has undefined behaviour (signed
    overflow, a read or a step outside a container). *)
Inductive outcome (A : Type) : Type :=
| Done (a : A) (w : world)
| OutOfFuel
| Undefined.

Arguments Done {A} a w.
Arguments OutOfFuel {A}.
Arguments Undefined {A}.

Definition prog (A : Type) : Type := world -> outcome A.

Definition ret {A} (a : A) : prog A := fun w => Done a w.

Definition bind {A B} (m : prog A) (k : A -> prog B) : prog B :=
  fun w =>
    match m w with
    | Done a w' => k a w'
    | OutOfFuel => OutOfFuel
    | Undefined => Undefined
    end.

Definition out_of_fuel {A} : prog A := fun _ => OutOfFuel.
Definition undefined {A} : prog A := fun _ => Undefined.

Declare Scope prog_scope.
Delimit Scope prog_scope with prog.
Notation "x <- m ;; k" := (bind m (fun x => k))
  (at level 100, m at next level, right associativity) : prog_scope.
Notation "m ;;; k" := (bind m (fun _ => k))
  (at level 100, right associativity) : prog_scope.
Local Open Scope prog_scope.

(** [ostr << item] on [std::cout]. *)
Definition put (o : out_item) : prog unit :=
  fun w => Done tt {| cin := cin w; cout := cout w ++ [o] |}.

(** [!std::cin] *)
Definition cin_failed : prog bool := fun w => Done (failed (cin w)) w.

(** ** util.hpp *)

(** [void print(auto name, const auto& item)]:
    [std::cout << name << ": " << item << '\n';] *)
Definition print (name : string) (item : out_item) : prog unit :=
  put (OStr name) ;;; put (OStr ": ") ;;; put item ;;; put (OStr newline).

(** [template<typename T> void print(const T& item)]:
    [std::cout << item << '\n';] *)
Definition print1 (item : out_item) : prog unit :=
  put item ;;; put (OStr newline).

(** ** The stream operators *)

(** [istr >> f] for a [float&]: a stream that has already failed leaves the
    target alone; so does one with nothing left (and it fails); text that
    is not a number stays unread, stores zero and fails; a numeral out of
    range is consumed, stores [FLT_MAX] or its opposite, and fails; a
    number is consumed and stored. *)
Definition extract_float (s : istream) (old : float) : istream * float :=
  if failed s then (s, old)
  else
    match pending s with
    | [] => ({| pending := []; failed := true |}, old)
    | Junk :: r => ({| pending := Junk :: r; failed := true |}, F32.zero)
    | Huge negative :: r =>
        ({| pending := r; failed := true |},
         if negative then F32.neg_FLT_MAX else F32.FLT_MAX)
    | Num f :: r => ({| pending := r; failed := false |}, f)
    end.

(** [std::istream& operator>>(std::istream& istr, Point& point)]:
    [return istr >> point.x >> point.y;] *)
Definition extract_Point (s : istream) (point : Point) : istream * Point :=
  let '(s1, px) := extract_float s (Point_x point) in
  let '(s2, py) := extract_float s1 (Point_y point) in
  (s2, {| Point_x := px; Point_y := py |}).

(** [std::ostream& operator<<(std::ostream& ostr, const Point3& point)]:
    [return ostr << point.x << " " << point.y << " " << point.z;] *)
Definition insert_Point3 (point : Point3) : prog unit :=
  put (OFloat (Point3_x point)) ;;; put (OStr " ") ;;;
  put (OFloat (Point3_y point)) ;;; put (OStr " ") ;;;
  put (OFloat (Point3_z point)).

(** ** The pipeline [points]

    [views::istream<Point>(std::cin)] owns one [Point], which every read
    overwrites; the stream it reads from is [std::cin], shared by every
    copy of the view. *)
Record istream_view : Type := mkIstreamView { object : Point }.

(** [views::filter(pred)] over the istream view. *)
Record filter_view : Type :=
  mkFilterView { filter_base : istream_view; filter_pred : Point -> bool }.

(** [views::transform(fun)] over the filter view. *)
Record transform_view : Type :=
  mkTransformView { transform_base : filter_view;
                    transform_fun : Point -> Point3 }.

(** [[](Point value) { return value.x < 20.0f; }] *)
Definition points_filter (value : Point) : bool :=
  F32.ltb (Point_x value) F32.twenty.

(** [[](Point value) { return Point3(value.x, value.x * value.y, value.y); }] *)
Definition points_transform (value : Point) : Point3 :=
  {| Point3_x := Point_x value;
     Point3_y := F32.mul (Point_x value) (Point_y value);
     Point3_z := Point_y value |}.

(** [auto points = views::istream<Point>(std::cin) | views::filter(..)
    | views::transform(..);]  The view's object is value-initialised;
    nothing is read yet. *)
Definition points : transform_view :=
  {| transform_base :=
       {| filter_base := {| object := {| Point_x := F32.zero; Point_y := F32.zero |} |};
          filter_pred := points_filter |};
     transform_fun := points_transform |}.

(** The read behind [begin()] and behind [operator++] of the istream
    view's iterator: [*stream >> object]. *)
Definition istream_read (v : istream_view) : prog istream_view :=
  fun w =>
    let '(s, p) := extract_Point (cin w) (object v) in
    Done {| object := p |} {| cin := s; cout := cout w |}.

(** [ranges::find_if(it, default_sentinel, pred)] on the istream view's
    iterator: [while (it != end && !pred( *it)) ++it;] *)
Fixpoint find_if (fuel : nat) (pred : Point -> bool) (v : istream_view)
  : prog istream_view :=
  match fuel with
  | O => out_of_fuel
  | S n =>
      e <- cin_failed ;;
      if e then ret v
      else if pred (object v) then ret v
      else (v' <- istream_read v ;; find_if n pred v')
  end.

(** [filter_view::begin()]: [find_if(ranges::begin(base), ranges::end(base), pred)];
    the base is an input range, so the position is not cached. *)
Definition filter_begin (fuel : nat) (fv : filter_view) : prog istream_view :=
  v <- istream_read (filter_base fv) ;; find_if fuel (filter_pred fv) v.

(** [filter_view::iterator::operator++]:
    [current = find_if(++current, ranges::end(base), pred)]. *)
Definition filter_incr (fuel : nat) (pred : Point -> bool) (v : istream_view)
  : prog istream_view :=
  v' <- istream_read v ;; find_if fuel pred v'.

(** [ranges::next(it, n, end)], behind [drop_view::begin()]:
    [while (n-- > 0 && it != end) ++it;] *)
Fixpoint advance (fuel : nat) (pred : Point -> bool) (n : nat) (v : istream_view)
  : prog istream_view :=
  match n with
  | O => ret v
  | S k =>
      e <- cin_failed ;;
      if e then ret v
      else (v' <- filter_incr fuel pred v ;; advance fuel pred k v')
  end.

(** The loop of [rng::copy]: [for (; it != end; ++it, ++out) *out = *it;]
    [*it] applies the transform to the filter iterator's element; the
    output iterator is a [sink] threading its own state. *)
Fixpoint copy_loop {S : Type} (fuel : nat) (tv : transform_view)
    (sink : S -> Point3 -> prog S) (out : S) (v : istream_view) : prog S :=
  match fuel with
  | O => out_of_fuel
  | Datatypes.S n =>
      e <- cin_failed ;;
      if e then ret out
      else (out' <- sink out (transform_fun tv (object v)) ;;
            v' <- filter_incr n (filter_pred (transform_base tv)) v ;;
            copy_loop n tv sink out' v')
  end.

(** [rng::copy(tv | views::drop(count), out)]; [count = 0] is
    [rng::copy(tv, out)].  [views::drop] copies the view it is given. *)
Definition copy_drop {S : Type} (fuel : nat) (tv : transform_view) (count : nat)
    (sink : S -> Point3 -> prog S) (out : S) : prog S :=
  v0 <- filter_begin fuel (transform_base tv) ;;
  v1 <- advance fuel (filter_pred (transform_base tv)) count v0 ;;
  copy_loop fuel tv sink out v1.

(** [std::ostream_iterator<Point3>(std::cout, "\n")]: assignment inserts
    the value, then the delimiter. *)
Definition ostream_iterator (_ : unit) (value : Point3) : prog unit :=
  insert_Point3 value ;;; put (OStr newline).

(** [std::back_inserter(cached_points)]: assignment is [push_back]. *)
Definition back_inserter (vec : list Point3) (value : Point3) : prog (list Point3) :=
  ret (vec ++ [value]).

(** Line 53: [rng::copy(points | views::drop(1),
    std::ostream_iterator<Point3>(std::cout, "\n"));] *)
Definition copy_to_cout (fuel : nat) : prog unit :=
  copy_drop fuel points 1 ostream_iterator tt.

(** Lines 58-59: [std::vector<Point3> cached_points;
    rng::copy(points, std::back_inserter(cached_points));] *)
Definition copy_to_cached (fuel : nat) : prog (list Point3) :=
  copy_drop fuel points 0 back_inserter [].

(** ** The bounded traversal of [views::iota(0)] (lines 73-79) *)

Definition INT_MIN : Z := -2147483648.
Definition INT_MAX : Z := 2147483647.

(** The value of an [int] expression: outside the range of [int] the
    arithmetic has undefined behaviour. *)
Definition int_result (v : Z) : prog Z :=
  if (INT_MIN <=? v) && (v <=? INT_MAX) then ret v else undefined.

(** [[](int v) {return v % 1 == 0;}] *)
Definition iota_filter (v : Z) : bool := Z.rem v 1 =? 0.

(** [[](int v) {return v * v;}] *)
Definition iota_transform (v : Z) : prog Z := int_result (v * v).

(** [++it] on the iterator of [views::iota(0)]; its sentinel is
    unreachable. *)
Definition iota_incr (v : Z) : prog Z := int_result (v + 1).

(** [ranges::find_if(it, unreachable_sentinel, pred)] *)
Fixpoint iota_find_if (fuel : nat) (v : Z) : prog Z :=
  match fuel with
  | O => out_of_fuel
  | S n => if iota_filter v then ret v
           else (v' <- iota_incr v ;; iota_find_if n v')
  end.

Definition iota_filter_begin (fuel : nat) : prog Z := iota_find_if fuel 0.

Definition iota_filter_incr (fuel : nat) (v : Z) : prog Z :=
  v' <- iota_incr v ;; iota_find_if fuel v'.

(** [drop_view::begin()]: [ranges::next(begin, count, end)], the end never
    being reached. *)
Fixpoint iota_advance (fuel : nat) (count : nat) (v : Z) : prog Z :=
  match count with
  | O => ret v
  | S k => v' <- iota_filter_incr fuel v ;; iota_advance fuel k v'
  end.

(** The range-for over [.. | views::take(count)]: a counted iterator, at
    its end when the counter is zero; the body reads [*it], which squares,
    and prints it; [++it] steps the underlying iterator and decrements
    the counter. *)
Fixpoint iota_take_loop (fuel : nat) (count : nat) (v : Z) : prog unit :=
  match count with
  | O => ret tt
  | S k =>
      point <- iota_transform v ;;
      print "item" (OInt point) ;;;
      v' <- iota_filter_incr fuel v ;;
      iota_take_loop fuel k v'
  end.

(** [for (auto point : views::iota(0) | views::filter(..) | views::transform(..)
    | views::drop(2) | views::take(20)) { print("item", point); }] *)
Definition iota_demo (fuel : nat) : prog unit :=
  v0 <- iota_filter_begin fuel ;;
  v2 <- iota_advance fuel 2 v0 ;;
  iota_take_loop fuel 20 v2.

(** ** Sorting (lines 113-119)

    [std::sort] and [rng::sort] are the library's; their contract is that
    the range ends up a permutation of itself, ordered by the comparison,
    provided the comparison is a strict weak ordering of its elements.  An
    insertion sort, of the kind the library runs on short ranges, stands
    for them so that the calls can be evaluated; it is proved to meet the
    contract ([insertion_sort_perm], [insertion_sort_sorted]), and on
    distinct keys the contract fixes the result ([ascending_by_z_unique]). *)
Section InsertionSort.
Context {A : Type}.
Variable comp : A -> A -> bool.

(** Linear insertion: [val] moves towards the front past every element it
    compares below.  The sorted prefix is held back to front. *)
Fixpoint linear_insert (val : A) (prefix_rev : list A) : list A :=
  match prefix_rev with
  | [] => [val]
  | e :: r => if comp val e then e :: linear_insert val r
              else val :: prefix_rev
  end.

(** One step of the sort: an element below the first one goes to the
    front, any other is inserted linearly. *)
Definition insertion_step (prefix_rev : list A) (val : A) : list A :=
  match rev prefix_rev with
  | [] => [val]
  | first :: _ =>
      if comp val first then prefix_rev ++ [val]
      else linear_insert val prefix_rev
  end.

Definition insertion_sort (l : list A) : list A :=
  rev (fold_left insertion_step l []).
End InsertionSort.

(** [std::sort(first, last, comp)] *)
Definition std_sort {A} (comp : A -> A -> bool) (v : list A) : list A :=
  insertion_sort comp v.

(** [rng::sort(r, comp, proj)]: elements are compared as
    [comp(proj(a), proj(b))]. *)
Definition rng_sort {A K} (comp : K -> K -> bool) (proj : A -> K) (v : list A)
  : list A :=
  insertion_sort (fun a b => comp (proj a) (proj b)) v.

(** [rng::less{}] on [float]. *)
Definition rng_less : float -> float -> bool := F32.ltb.

(** [std::sort(cached_points.begin(), cached_points.end(),
    [](const Point3& a, const Point3& b) { return a.z < b.z; });] *)
Definition sort_comparator (cached_points : list Point3) : list Point3 :=
  std_sort (fun a b => F32.ltb (Point3_z a) (Point3_z b)) cached_points.

(** [rng::sort(cached_points, {}, [](Point3 value) {return value.z;});] *)
Definition sort_lambda_projection (cached_points : list Point3) : list Point3 :=
  rng_sort rng_less (fun value => Point3_z value) cached_points.

(** [rng::sort(cached_points, {}, &Point3::z);] *)
Definition sort_member_projection (cached_points : list Point3) : list Point3 :=
  rng_sort rng_less Point3_z cached_points.

(** The three calls, one after the other, on the same vector. *)
Definition sorting_steps (cached_points : list Point3) : list Point3 :=
  sort_member_projection (sort_lambda_projection (sort_comparator cached_points)).

(** ** [main], lines 34-79

    [type_of(x)] names the type of [x] without evaluating it; the four names
    come from [type_name.hpp] and are taken as given.  The result is
    [cached_points]. *)
Section Main.
Variables tn_points tn_base tn_begin tn_end : string.

Definition main_io (fuel : nat) : prog (list Point3) :=
  print "points type" (OStr tn_points) ;;;
  print1 (OStr "") ;;;
  print "points base.base" (OStr tn_base) ;;;
  print1 (OStr "") ;;;
  copy_to_cout fuel ;;;
  cached_points <- copy_to_cached fuel ;;
  print "type of points.begin()" (OStr tn_begin) ;;;
  print1 (OStr "") ;;;
  print "type of points.end()" (OStr tn_end) ;;;
  print1 (OStr "") ;;;
  iota_demo fuel ;;;
  ret cached_points.
End Main.

(** The world [main] starts in: the given input, nothing written yet. *)
Definition initial (input : list token) : world :=
  {| cin := good input; cout := [] |}.

(** * What the traversals compute

    The vocabulary of the statements below. *)

(** The pairs read from an input: two numbers make a [Point]; reading stops
    at the first field that is missing or does not convert. *)
Fixpoint parse (ts : list token) : list Point :=
  match ts with
  | Num a :: Num b :: r => {| Point_x := a; Point_y := b |} :: parse r
  | _ => []
  end.

(** The stream after an extraction that fails on the head of [ts]: an
    out-of-range numeral has been consumed, anything else is left. *)
Definition halted (ts : list token) : istream :=
  match ts with
  | Huge _ :: r => {| pending := r; failed := true |}
  | _ => {| pending := ts; failed := true |}
  end.

(** The stream once reading has stopped. *)
Fixpoint exhausted (ts : list token) : istream :=
  match ts with
  | Num a :: Num b :: r => exhausted r
  | Num a :: r => halted r
  | _ => halted ts
  end.

(** The input made of the given pairs and nothing else. *)
Definition encode (ps : list Point) : list token :=
  flat_map (fun p => [Num (Point_x p); Num (Point_y p)]) ps.

(** The records a full traversal of a pipeline yields on an input. *)
Definition yields (tv : transform_view) (ts : list token) : list Point3 :=
  map (transform_fun tv) (filter (filter_pred (transform_base tv)) (parse ts)).

(** The derived stream: a full traversal of [points]. *)
Definition derived (ts : list token) : list Point3 := yields points ts.

(** One record on [std::cout] as line 53 writes it. *)
Definition line (r : Point3) : list out_item :=
  [OFloat (Point3_x r); OStr " "; OFloat (Point3_y r); OStr " ";
   OFloat (Point3_z r); OStr newline].

(** Where an iterator operation leaves a traversal filtered by [pred]: on
    the element [q] heading [els], the rest of [els] still to be read from
    an input at least [k] fields shorter than [ts], or, [els] being empty,
    at the end with the stream exhausted. *)
Definition reaches (pred : Point -> bool) (res : outcome istream_view)
    (o : list out_item) (ts : list token) (k : nat) (els : list Point) : Prop :=
  match els with
  | [] => exists v, res = Done v {| cin := exhausted ts; cout := o |}
  | q :: els' =>
      exists r,
        res = Done {| object := q |} {| cin := good r; cout := o |} /\
        els' = filter pred (parse r) /\
        exhausted r = exhausted ts /\
        (length r + k <= length ts)%nat
  end.

(** [count] consecutive integers from [v] on. *)
Fixpoint zrange (v : Z) (count : nat) : list Z :=
  match count with
  | O => []
  | S k => v :: zrange (v + 1) k
  end.

(** What [print("item", point)] inserts. *)
Definition item_line (point : Z) : list out_item :=
  [OStr "item"; OStr ": "; OInt point; OStr newline].

(** What [print(name, item)] and [print(item)] insert. *)
Definition print_line (name : string) (item : out_item) : list out_item :=
  [OStr name; OStr ": "; item; OStr newline].

Definition print1_line (item : out_item) : list out_item :=
  [item; OStr newline].

(** The squares the loop of lines 73-79 prints. *)
Definition iota_items : list Z := map (fun k => k * k) (zrange 2 20).

(** What lines 43-48 and lines 61-64 print. *)
Definition header (tn_points tn_base : string) : list out_item :=
  print_line "points type" (OStr tn_points) ++ print1_line (OStr "") ++
  print_line "points base.base" (OStr tn_base) ++ print1_line (OStr "").

Definition middle (tn_begin tn_end : string) : list out_item :=
  print_line "type of points.begin()" (OStr tn_begin) ++ print1_line (OStr "") ++
  print_line "type of points.end()" (OStr tn_end) ++ print1_line (OStr "").

(** The comparison all three calls make: [a.z < b.z]. *)
Definition z_less (a b : Point3) : bool := F32.ltb (Point3_z a) (Point3_z b).

(** ** Sample data *)

Definition P_1_2 : Point := {| Point_x := F32.one; Point_y := F32.two |}.
Definition P_2_3 : Point := {| Point_x := F32.two; Point_y := F32.three |}.
Definition P_20_1 : Point := {| Point_x := F32.twenty; Point_y := F32.one |}.
Definition P_nan_1 : Point := {| Point_x := F32.nan; Point_y := F32.one |}.

(** The pairs (1, 2), (2, 3), (20, 1) and again (2, 3). *)
Definition sample_pairs : list Point := [P_1_2; P_2_3; P_20_1; P_2_3].
Definition sample_input : list token := encode sample_pairs.

Definition z_only (z : float) : Point3 :=
  {| Point3_x := F32.zero; Point3_y := F32.zero; Point3_z := z |}.

Definition sample_vector : list Point3 :=
  [z_only F32.three; z_only F32.one; z_only F32.six; z_only F32.two].

(** ** Orders on [Point3] *)

(** [a.z <= b.z] *)
Definition z_le (a b : Point3) : Prop :=
  F32.leb (Point3_z a) (Point3_z b) = true.

(** Ascending by [z]: no record is followed, at any distance, by one with
    a smaller [z]. *)
Definition ascending_by_z (v : list Point3) : Prop := StronglySorted z_le v.

(** The [z] the comparison orders: all but NaN. *)
Definition z_is_number (p : Point3) : Prop := F32.is_nan (Point3_z p) = false.

(** [a.z == b.z] *)
Definition z_tie (a b : Point3) : Prop :=
  F32.eqb (Point3_z a) (Point3_z b) = true.

(** No two records of the vector have equal [z]. *)
Definition distinct_z (v : list Point3) : Prop :=
  ForallOrdPairs (fun a b => ~ z_tie a b) v.

(** ** Lines 83-108: [rng::find]

    An iterator into a contiguous container ([std::vector<T>::iterator],
    [std::string_view::iterator]) is the container's elements and a
    position, from 0 up to the size; the size is the position past the
    end. *)
Record array_iterator (A : Type) : Type :=
  mkArrayIterator { elements : list A; position : nat }.

Arguments mkArrayIterator {A} elements position.
Arguments elements {A} _.
Arguments position {A} _.

(** [v.begin()] and [v.end()] *)
Definition array_begin {A} (v : list A) : array_iterator A :=
  {| elements := v; position := 0 |}.

Definition array_end {A} (v : list A) : array_iterator A :=
  {| elements := v; position := length v |}.

(** [*it]: reading outside the container is undefined. *)
Definition array_deref {A} (it : array_iterator A) : prog A :=
  match nth_error (elements it) (position it) with
  | Some x => ret x
  | None => undefined
  end.

(** [++it]: there is nothing beyond the position past the end. *)
Definition array_incr {A} (it : array_iterator A) : prog (array_iterator A) :=
  if (position it <? length (elements it))%nat
  then ret {| elements := elements it; position := S (position it) |}
  else undefined.

(** [--it]: there is nothing before the first position. *)
Definition array_decr {A} (it : array_iterator A) : prog (array_iterator A) :=
  match position it with
  | O => undefined
  | S k => ret {| elements := elements it; position := k |}
  end.

(** [std::reverse_iterator] over such an iterator. *)
Record reverse_iterator (A : Type) : Type :=
  mkReverseIterator { current : array_iterator A }.

Arguments mkReverseIterator {A} current.
Arguments current {A} _.

(** [*it]: [auto tmp = current; return *--tmp;] *)
Definition reverse_deref {A} (it : reverse_iterator A) : prog A :=
  tmp <- array_decr (current it) ;; array_deref tmp.

(** [++it]: [--current;] *)
Definition reverse_incr {A} (it : reverse_iterator A) : prog (reverse_iterator A) :=
  c <- array_decr (current it) ;; ret {| current := c |}.

(** What [rng::find] asks of an iterator: [*it], [++it] and [it == last]. *)
Class Iterator (It A : Type) : Type :=
  { iter_deref : It -> prog A;
    iter_incr : It -> prog It;
    iter_same : It -> It -> bool }.

#[global] Instance array_Iterator (A : Type) : Iterator (array_iterator A) A :=
  {| iter_deref := array_deref;
     iter_incr := array_incr;
     iter_same := fun a b => Nat.eqb (position a) (position b) |}.

#[global] Instance reverse_Iterator (A : Type) : Iterator (reverse_iterator A) A :=
  {| iter_deref := reverse_deref;
     iter_incr := reverse_incr;
     iter_same := fun a b => Nat.eqb (position (current a)) (position (current b)) |}.

(** [rng::find(first, last, value)]:
    [while (first != last && !( *first == value)) ++first; return first;] *)
Fixpoint rng_find {It A : Type} {I : Iterator It A} (eqb : A -> A -> bool)
    (fuel : nat) (first last : It) (value : A) : prog It :=
  match fuel with
  | O => out_of_fuel
  | S n =>
      if iter_same first last then ret first
      else (x <- iter_deref first ;;
            if eqb x value then ret first
            else (first' <- iter_incr first ;; rng_find eqb n first' last value))
  end.

(** [v | views::reverse]: from the reverse iterator on [v.end()] to the
    one on [v.begin()]. *)
Definition reverse_begin {A} (v : list A) : reverse_iterator A :=
  {| current := array_end v |}.

Definition reverse_end {A} (v : list A) : reverse_iterator A :=
  {| current := array_begin v |}.

(** [v | views::reverse | views::drop(count)]: the reverse view is sized
    and random-access, so [begin()] is [begin + min(count, size)], which on
    a reverse iterator moves [current] back. *)
Definition reverse_drop_begin {A} (count : nat) (v : list A) : reverse_iterator A :=
  {| current := {| elements := v;
                   position := length v - Nat.min count (length v) |} |}.

(** Line 94: [std::vector<int> vvv{1, 2, 3};] *)
Definition vvv : list Z := [1; 2; 3].

(** Line 96, for any vector and value:
    [rng::find(v | views::reverse | views::drop(1), value)] *)
Definition find_legit (fuel : nat) (v : list Z) (value : Z)
  : prog (reverse_iterator Z) :=
  rng_find Z.eqb fuel (reverse_drop_begin 1 v) (reverse_end v) value.

(** Line 103, for any text and character:
    [rng::find(std::string_view(s), c)] *)
Definition find_string_view (fuel : nat) (s : string) (c : ascii)
  : prog (array_iterator ascii) :=
  rng_find Ascii.eqb fuel (array_begin (list_ascii_of_string s))
           (array_end (list_ascii_of_string s)) c.

(** Lines 83-108.  The result of the first [rng::find], on a temporary
    vector, is a [std::ranges::dangling], which holds nothing; its type
    name is taken as given.  A [char] is inserted as the text made of it. *)
Section FindDemo.
Variable tn_ub : string.

(** Lines 83-103: the three searches and the print of line 88; the result
    is [legit_iter] and [string_view_iter]. *)
Definition find_demo_iterators (fuel : nat)
  : prog (reverse_iterator Z * array_iterator ascii) :=
  _ <- rng_find Z.eqb fuel (array_begin [1; 2; 3; 4]) (array_end [1; 2; 3; 4]) 3 ;;
  print "ub_iter" (OStr tn_ub) ;;;
  legit_iter <- find_legit fuel vvv 3 ;;
  string_view_iter <- find_string_view fuel "abacaba" "c"%char ;;
  ret (legit_iter, string_view_iter).

(** Line 107: [print("legit", *legit_iter);] *)
Definition print_legit (legit_iter : reverse_iterator Z) : prog unit :=
  legit <- reverse_deref legit_iter ;;
  print "legit" (OInt legit).

(** Line 108: [print("string_view_iter", *string_view_iter);] *)
Definition print_string_view_iter (string_view_iter : array_iterator ascii)
  : prog unit :=
  c <- array_deref string_view_iter ;;
  print "string_view_iter" (OStr (String c EmptyString)).

Definition find_demo (fuel : nat) : prog unit :=
  iterators <- find_demo_iterators fuel ;;
  print_legit (fst iterators) ;;;
  print_string_view_iter (snd iterators).
End FindDemo.

(** The world after line 106: the stream as line 53 left it, and all that
    lines 43-88 have written. *)
Definition after_line_106 (tn_points tn_base tn_begin tn_end tn_ub : string)
    (ts : list token) : world :=
  {| cin := exhausted ts;
     cout := (header tn_points tn_base ++
              flat_map line (tl (derived ts)) ++
              middle tn_begin tn_end ++
              flat_map item_line iota_items) ++
             print_line "ub_iter" (OStr tn_ub) |}.

(** * Proofs *)

Ltac order_cases :=
  repeat match goal with
  | |- context [Z.compare ?a ?b] => destruct (Z.compare_spec a b)
  | H : context [Z.compare ?a ?b] |- _ => destruct (Z.compare_spec a b)
  | |- context [Pos.compare_cont Eq ?a ?b] =>
      change (Pos.compare_cont Eq a b) with (Pos.compare a b);
      destruct (Pos.compare_spec a b)
  | H : context [Pos.compare_cont Eq ?a ?b] |- _ =>
      change (Pos.compare_cont Eq a b) with (Pos.compare a b) in H;
      destruct (Pos.compare_spec a b)
  end.

(** ** Reading *)

Lemma failed_exhausted ts : failed (exhausted ts) = true.
Proof.
  revert ts. fix IH 1. intros [|[a| |n] [|[b| |n'] r]]; simpl; try reflexivity.
  apply IH.
Qed.

Lemma parse_shape ts :
  (exists a b r, ts = Num a :: Num b :: r) \/ parse ts = [].
Proof.
  destruct ts as [|[a| |n] [|[b| |n'] r]]; simpl; auto.
  left. exists a, b, r. reflexivity.
Qed.

Lemma extract_Point_stop ts p :
  parse ts = [] -> exists q, extract_Point (good ts) p = (exhausted ts, q).
Proof.
  destruct ts as [|[a| |n] [|[b| |n'] r]]; simpl; intros H; try discriminate;
    eexists; reflexivity.
Qed.

Lemma extract_Point_failed s p :
  failed s = true -> extract_Point s p = (s, p).
Proof.
  intros H. destruct p as [px py]. unfold extract_Point, extract_float.
  simpl. rewrite H. simpl. rewrite H. reflexivity.
Qed.

Lemma parse_encode ps : parse (encode ps) = ps.
Proof.
  induction ps as [|[a b] ps IH]; simpl; [reflexivity|]. now rewrite IH.
Qed.

Lemma exhausted_encode ps :
  exhausted (encode ps) = {| pending := []; failed := true |}.
Proof. induction ps as [|[a b] ps IH]; simpl; auto. Qed.

Lemma length_encode ps : length (encode ps) = (2 * length ps)%nat.
Proof. induction ps as [|[a b] ps IH]; simpl; lia. Qed.

(** ** Traversing a pipeline over [std::cin] *)

Section Traversal.
Variable tv : transform_view.
Local Abbreviation pred := (filter_pred (transform_base tv)).
Local Abbreviation f := (transform_fun tv).

Lemma reaches_weaken res o r ts k k' els :
  exhausted r = exhausted ts -> (length r + k' <= length ts + k)%nat ->
  reaches pred res o r k els -> reaches pred res o ts k' els.
Proof.
  intros He Hl. destruct els as [|q els]; simpl.
  - now rewrite He.
  - intros (r' & ? & ? & ? & ?). exists r'. repeat split; auto.
    + congruence.
    + lia.
Qed.

Lemma reaches_Done res o ts k els :
  reaches pred res o ts k els -> exists v w, res = Done v w.
Proof.
  destruct els as [|q els]; simpl.
  - intros [v ->]. eauto.
  - intros (r & -> & _). eauto.
Qed.

Lemma find_if_failed fuel v s o :
  failed s = true ->
  find_if (S fuel) pred v {| cin := s; cout := o |}
  = Done v {| cin := s; cout := o |}.
Proof.
  intros H. cbn [find_if]. unfold bind, cin_failed. cbn [cin]. now rewrite H.
Qed.

Lemma istream_read_pair p a b r o :
  istream_read {| object := p |} {| cin := good (Num a :: Num b :: r); cout := o |}
  = Done {| object := {| Point_x := a; Point_y := b |} |}
         {| cin := good r; cout := o |}.
Proof. reflexivity. Qed.

Lemma istream_read_stop p ts o :
  parse ts = [] ->
  exists v, istream_read {| object := p |} {| cin := good ts; cout := o |}
            = Done v {| cin := exhausted ts; cout := o |}.
Proof.
  intros H. destruct (extract_Point_stop ts p H) as [q Hq].
  exists {| object := q |}. unfold istream_read. cbn [cin cout object].
  now rewrite Hq.
Qed.

Lemma istream_read_failed v s o :
  failed s = true ->
  istream_read v {| cin := s; cout := o |} = Done v {| cin := s; cout := o |}.
Proof.
  intros H. destruct v as [p]. unfold istream_read. cbn [cin cout object].
  now rewrite (extract_Point_failed s p H).
Qed.

(** [find_if] stops on the first element that passes, or at the end. *)
Lemma find_if_reaches fuel : forall ts p o,
  (length ts + 2 <= fuel)%nat ->
  reaches pred (find_if fuel pred {| object := p |} {| cin := good ts; cout := o |})
          o ts 0 (filter pred (p :: parse ts)).
Proof.
  induction fuel as [|fuel IH]; intros ts p o Hf; [lia|].
  cbn [find_if filter]. unfold bind at 1, cin_failed. cbn [cin good failed object].
  destruct (pred p) eqn:Hp.
  - exists ts. unfold ret. repeat split; auto. lia.
  - unfold bind. destruct (parse_shape ts) as [(a & b & r & ->)|Hs].
    + rewrite istream_read_pair. cbn [parse length] in *.
      apply reaches_weaken with (r := r) (k := 0%nat);
        [reflexivity|cbn [length]; lia|].
      apply IH. lia.
    + destruct (istream_read_stop p ts o Hs) as [v Hv]. rewrite Hv, Hs.
      destruct fuel as [|fuel]; [lia|].
      rewrite find_if_failed by apply failed_exhausted.
      now exists v.
Qed.

(** [++it] on the filter iterator: at least one pair is read before the
    next element is found. *)
Lemma filter_incr_reaches fuel ts p o :
  (length ts + 1 <= fuel)%nat ->
  reaches pred (filter_incr fuel pred {| object := p |} {| cin := good ts; cout := o |})
          o ts 2 (filter pred (parse ts)).
Proof.
  intros Hf. unfold filter_incr, bind.
  destruct (parse_shape ts) as [(a & b & r & ->)|Hs].
  - rewrite istream_read_pair. cbn [length] in Hf.
    apply reaches_weaken with (r := r) (k := 0%nat);
      [reflexivity|cbn [length]; lia|].
    apply (find_if_reaches fuel r {| Point_x := a; Point_y := b |} o). lia.
  - destruct (istream_read_stop p ts o Hs) as [v Hv]. rewrite Hv, Hs.
    destruct fuel as [|fuel]; [lia|].
    rewrite find_if_failed by apply failed_exhausted.
    now exists v.
Qed.

(** [begin()] of the filter view, on a stream in good state. *)
Lemma filter_begin_reaches fuel ts o :
  (length ts + 1 <= fuel)%nat ->
  reaches pred (filter_begin fuel (transform_base tv) {| cin := good ts; cout := o |})
          o ts 2 (filter pred (parse ts)).
Proof.
  intros Hf. destruct (filter_base (transform_base tv)) as [p] eqn:Hb.
  unfold filter_begin. rewrite Hb.
  now apply (filter_incr_reaches fuel ts p o).
Qed.

(** On a stream that has failed, [begin()] reads nothing and is the end. *)
Lemma filter_begin_failed fuel s o :
  failed s = true ->
  filter_begin (S fuel) (transform_base tv) {| cin := s; cout := o |}
  = Done (filter_base (transform_base tv)) {| cin := s; cout := o |}.
Proof.
  intros H. unfold filter_begin, bind.
  rewrite istream_read_failed by assumption.
  now apply find_if_failed.
Qed.

Lemma advance_failed fuel n v s o :
  failed s = true ->
  advance fuel pred n v {| cin := s; cout := o |}
  = Done v {| cin := s; cout := o |}.
Proof.
  intros H. destruct n as [|n]; [reflexivity|].
  cbn [advance]. unfold bind, cin_failed. cbn [cin]. now rewrite H.
Qed.

(** [ranges::next(it, n, end)] skips [n] elements, or as many as there are. *)
Lemma advance_reaches fuel n : forall v w o ts k els,
  (length ts + 1 <= fuel)%nat ->
  reaches pred (Done v w) o ts k els ->
  reaches pred (advance fuel pred n v w) o ts k (skipn n els).
Proof.
  induction n as [|n IH]; intros v w o ts k els Hf Hr; [exact Hr|].
  destruct els as [|q els]; cbn [skipn].
  - destruct Hr as [v' Hr]. injection Hr as -> ->.
    rewrite advance_failed by apply failed_exhausted. now exists v'.
  - destruct Hr as (r & Hr & -> & He & Hl). injection Hr as -> ->.
    cbn [advance]. unfold bind at 1, cin_failed. cbn [cin good failed].
    assert (Hq := filter_incr_reaches fuel r q o ltac:(lia)).
    destruct (reaches_Done _ _ _ _ _ Hq) as (v' & w' & E).
    unfold bind. rewrite E in *.
    apply reaches_weaken with (r := r) (k := 2%nat); [assumption|lia|].
    apply IH; [lia|assumption].
Qed.
End Traversal.

(** ** [rng::copy] of a pipeline into an output iterator *)

Section Copy.
Variable tv : transform_view.
Context {St : Type}.
Variable sink : St -> Point3 -> prog St.

(** What an assignment through the output iterator does: it leaves the
    input alone, appends [shows r] to the output and moves its own state
    from [out] to [push out r]. *)
Variable push : St -> Point3 -> St.
Variable shows : Point3 -> list out_item.
Hypothesis sink_spec : forall out r s o,
  sink out r {| cin := s; cout := o |}
  = Done (push out r) {| cin := s; cout := o ++ shows r |}.

Local Abbreviation pred := (filter_pred (transform_base tv)).
Local Abbreviation f := (transform_fun tv).

Lemma copy_loop_failed fuel out v s o :
  failed s = true ->
  copy_loop (S fuel) tv sink out v {| cin := s; cout := o |}
  = Done out {| cin := s; cout := o |}.
Proof.
  intros H. cbn [copy_loop]. unfold bind, cin_failed. cbn [cin]. now rewrite H.
Qed.

(** From an element on, the loop writes that element and every later one
    that passes the filter, and leaves the stream exhausted. *)
Lemma copy_loop_elements fuel : forall ts p out o,
  (length ts + 2 <= fuel)%nat ->
  copy_loop fuel tv sink out {| object := p |} {| cin := good ts; cout := o |}
  = Done (fold_left push (map f (p :: filter pred (parse ts))) out)
         {| cin := exhausted ts;
            cout := o ++ flat_map shows (map f (p :: filter pred (parse ts))) |}.
Proof.
  induction fuel as [|fuel IH]; intros ts p out o Hf; [lia|].
  cbn [copy_loop]. unfold bind at 1, cin_failed. cbn [cin good failed object].
  unfold bind at 1. rewrite sink_spec. unfold bind at 1.
  assert (Hq := filter_incr_reaches tv fuel ts p (o ++ shows (f p)) ltac:(lia)).
  destruct (filter pred (parse ts)) as [|q els] eqn:E.
  - destruct Hq as [v ->]. destruct fuel as [|fuel]; [lia|].
    rewrite copy_loop_failed by apply failed_exhausted.
    cbn [map fold_left flat_map]. now rewrite app_nil_r.
  - destruct Hq as (r & -> & -> & He & Hl).
    rewrite IH by lia. rewrite He.
    cbn [map fold_left flat_map]. now rewrite <- app_assoc.
Qed.

(** [rng::copy(tv | views::drop(count), out)] on a stream in good state
    writes the yield of the pipeline less its first [count] records and
    exhausts the stream. *)
Lemma copy_drop_good fuel count ts out o :
  (length ts < fuel)%nat ->
  copy_drop fuel tv count sink out {| cin := good ts; cout := o |}
  = Done (fold_left push (skipn count (yields tv ts)) out)
         {| cin := exhausted ts;
            cout := o ++ flat_map shows (skipn count (yields tv ts)) |}.
Proof.
  intros Hf. unfold copy_drop, yields. rewrite skipn_map.
  assert (H0 := filter_begin_reaches tv fuel ts o ltac:(lia)).
  destruct (reaches_Done _ _ _ _ _ _ H0) as (v0 & w0 & E0).
  unfold bind at 1. rewrite E0 in *.
  assert (H1 := advance_reaches tv fuel count v0 w0 o ts 2 _ ltac:(lia) H0).
  unfold bind at 1.
  destruct (skipn count (filter pred (parse ts))) as [|q els].
  - destruct H1 as [v ->]. destruct fuel as [|fuel]; [lia|].
    rewrite copy_loop_failed by apply failed_exhausted.
    cbn [map fold_left flat_map]. now rewrite app_nil_r.
  - destruct H1 as (r & -> & -> & He & Hl).
    rewrite copy_loop_elements by lia. now rewrite He.
Qed.

(** On a stream that has already failed, nothing is read and nothing is
    written. *)
Lemma copy_drop_failed fuel count s out o :
  failed s = true -> (0 < fuel)%nat ->
  copy_drop fuel tv count sink out {| cin := s; cout := o |}
  = Done out {| cin := s; cout := o |}.
Proof.
  intros H Hf. destruct fuel as [|fuel]; [lia|].
  unfold copy_drop, bind.
  rewrite filter_begin_failed by assumption.
  rewrite advance_failed by assumption.
  now apply copy_loop_failed.
Qed.
End Copy.

(** The two output iterators of [main]. *)
Lemma ostream_iterator_spec out r s o :
  ostream_iterator out r {| cin := s; cout := o |}
  = Done tt {| cin := s; cout := o ++ line r |}.
Proof.
  unfold ostream_iterator, insert_Point3, bind, put, line. cbn [cin cout].
  now rewrite <- !app_assoc.
Qed.

Lemma back_inserter_spec vec r s o :
  back_inserter vec r {| cin := s; cout := o |}
  = Done (vec ++ [r]) {| cin := s; cout := o ++ [] |}.
Proof. unfold back_inserter, ret. now rewrite app_nil_r. Qed.

Lemma fold_left_push_back (rs vec : list Point3) :
  fold_left (fun v r => v ++ [r]) rs vec = vec ++ rs.
Proof.
  revert vec. induction rs as [|r rs IH]; intros vec; cbn [fold_left].
  - now rewrite app_nil_r.
  - rewrite IH, <- app_assoc. reflexivity.
Qed.

Lemma flat_map_nil {A B} (l : list A) : flat_map (fun _ : A => @nil B) l = [].
Proof. induction l; simpl; auto. Qed.

(** Line 53 on a fresh stream. *)
Lemma copy_to_cout_good fuel ts o :
  (length ts < fuel)%nat ->
  copy_to_cout fuel {| cin := good ts; cout := o |}
  = Done tt {| cin := exhausted ts;
               cout := o ++ flat_map line (skipn 1 (derived ts)) |}.
Proof.
  intros Hf. unfold copy_to_cout.
  rewrite (copy_drop_good points ostream_iterator (fun _ _ => tt) line
             ostream_iterator_spec fuel 1 ts tt o Hf).
  f_equal. now destruct (fold_left _ _ _).
Qed.

(** Lines 58-59 on a stream that has failed. *)
Lemma copy_to_cached_failed fuel s o :
  failed s = true -> (0 < fuel)%nat ->
  copy_to_cached fuel {| cin := s; cout := o |}
  = Done [] {| cin := s; cout := o |}.
Proof.
  intros H Hf. unfold copy_to_cached.
  apply (copy_drop_failed points back_inserter fuel 0 s [] o H Hf).
Qed.

(** Lines 58-59 on a fresh stream (not what [main] does: there the stream
    has been exhausted by line 53). *)
Lemma copy_to_cached_good fuel ts o :
  (length ts < fuel)%nat ->
  copy_to_cached fuel {| cin := good ts; cout := o |}
  = Done (derived ts) {| cin := exhausted ts; cout := o |}.
Proof.
  intros Hf. unfold copy_to_cached.
  rewrite (copy_drop_good points back_inserter (fun v r => v ++ [r]) (fun _ => [])
             back_inserter_spec fuel 0 ts [] o Hf).
  cbn [skipn]. now rewrite fold_left_push_back, flat_map_nil, app_nil_r.
Qed.

(** ** The traversal of [views::iota(0)] *)

Lemma int_result_in_range v :
  INT_MIN <= v <= INT_MAX -> int_result v = ret v.
Proof.
  intros [Hl Hu]. unfold int_result.
  apply Z.leb_le in Hl, Hu. now rewrite Hl, Hu.
Qed.

(** Every [int] is a multiple of one: the filter lets everything through. *)
Lemma iota_filter_true v : iota_filter v = true.
Proof. unfold iota_filter. now rewrite Z.rem_1_r. Qed.

Lemma iota_find_if_stays fuel v w :
  iota_find_if (S fuel) v w = Done v w.
Proof. cbn [iota_find_if]. now rewrite iota_filter_true. Qed.

Lemma iota_filter_incr_next fuel v w :
  INT_MIN <= v + 1 <= INT_MAX ->
  iota_filter_incr (S fuel) v w = Done (v + 1) w.
Proof.
  intros H. unfold iota_filter_incr, iota_incr, bind.
  rewrite int_result_in_range by assumption. unfold ret.
  apply iota_find_if_stays.
Qed.

Lemma iota_advance_plus fuel count : forall v w,
  INT_MIN <= v -> v + Z.of_nat count <= INT_MAX ->
  iota_advance (S fuel) count v w = Done (v + Z.of_nat count) w.
Proof.
  induction count as [|count IH]; intros v w Hl Hu.
  - cbn [iota_advance]. unfold ret. f_equal. lia.
  - cbn [iota_advance]. unfold bind.
    rewrite iota_filter_incr_next by lia.
    rewrite IH by lia. f_equal. lia.
Qed.

Lemma print_item point w :
  print "item" (OInt point) w
  = Done tt {| cin := cin w; cout := cout w ++ item_line point |}.
Proof.
  unfold print, bind, put, item_line. cbn [cin cout].
  now rewrite <- !app_assoc.
Qed.

(** The loop prints the squares of [count] consecutive integers, as long
    as they are small enough for their squares to be [int]s. *)
Lemma iota_take_loop_squares fuel count : forall v w,
  0 <= v -> v + Z.of_nat count <= 46340 ->
  iota_take_loop (S fuel) count v w
  = Done tt {| cin := cin w;
               cout := cout w ++ flat_map item_line
                                   (map (fun k => k * k) (zrange v count)) |}.
Proof.
  induction count as [|count IH]; intros v w Hl Hu.
  - cbn [iota_take_loop zrange map flat_map]. unfold ret.
    rewrite app_nil_r. now destruct w.
  - cbn [iota_take_loop zrange map flat_map].
    unfold iota_transform. unfold bind at 1.
    rewrite int_result_in_range by (unfold INT_MIN, INT_MAX; nia).
    unfold ret. unfold bind at 1. rewrite print_item. unfold bind.
    rewrite iota_filter_incr_next by (unfold INT_MIN, INT_MAX; lia).
    rewrite IH by lia. cbn [cin cout]. now rewrite <- app_assoc.
Qed.

(** ** The order of binary32 *)

Lemma SFcompare_antisym x y :
  SFcompare y x = option_map CompOpp (SFcompare x y).
Proof.
  destruct x as [sx|sx| |sx mx ex], y as [sy|sy| |sy my ey];
    try destruct sx; try destruct sy; cbn; try reflexivity;
    rewrite (Z.compare_antisym ex ey); destruct (ex ?= ey); cbn; try reflexivity;
    change (Pos.compare_cont Eq my mx) with (Pos.compare my mx);
    change (Pos.compare_cont Eq mx my) with (Pos.compare mx my);
    rewrite (Pos.compare_antisym mx my); destruct (mx ?= my)%positive; reflexivity.
Qed.

Lemma SFleb_trans x y z :
  SFleb x y = true -> SFleb y z = true -> SFleb x z = true.
Proof.
  unfold SFleb.
  destruct x as [sx|sx| |sx mx ex], y as [sy|sy| |sy my ey], z as [sz|sz| |sz mz ez];
    try destruct sx; try destruct sy; try destruct sz; cbn;
    try reflexivity; try discriminate;
    order_cases; cbn; try reflexivity; try discriminate; try lia.
Qed.

Lemma SFcompare_not_nan x y :
  F32.is_nan x = false -> F32.is_nan y = false -> SFcompare x y <> None.
Proof.
  destruct x as [sx|sx| |sx mx ex], y as [sy|sy| |sy my ey]; cbn;
    intros; congruence.
Qed.

Module F32Order.

Lemma ltb_leb a b : F32.ltb a b = true -> F32.leb a b = true.
Proof.
  unfold F32.ltb, F32.leb, SFltb, SFleb.
  destruct (SFcompare a b) as [[| |]|]; congruence.
Qed.

(** [a <= b] rules out [b < a], whatever the operands. *)
Lemma leb_not_ltb a b : F32.leb a b = true -> F32.ltb b a = false.
Proof.
  unfold F32.ltb, F32.leb, SFltb, SFleb. rewrite (SFcompare_antisym a b).
  destruct (SFcompare a b) as [[| |]|]; cbn; congruence.
Qed.

(** On numbers, [!(a < b)] is [b <= a]. *)
Lemma not_ltb_leb a b :
  F32.is_nan a = false -> F32.is_nan b = false ->
  F32.ltb a b = false -> F32.leb b a = true.
Proof.
  intros Ha Hb. assert (H := SFcompare_not_nan a b Ha Hb).
  unfold F32.ltb, F32.leb, SFltb, SFleb. rewrite (SFcompare_antisym a b).
  destruct (SFcompare a b) as [[| |]|]; cbn; congruence.
Qed.

Lemma leb_trans a b c :
  F32.leb a b = true -> F32.leb b c = true -> F32.leb a c = true.
Proof. apply SFleb_trans. Qed.

Lemma leb_antisym a b :
  F32.leb a b = true -> F32.leb b a = true -> F32.eqb a b = true.
Proof.
  unfold F32.leb, F32.eqb, SFleb, SFeqb. rewrite (SFcompare_antisym a b).
  destruct (SFcompare a b) as [[| |]|]; cbn; congruence.
Qed.

Lemma eqb_sym a b : F32.eqb a b = F32.eqb b a.
Proof.
  unfold F32.eqb, SFeqb. rewrite (SFcompare_antisym a b).
  destruct (SFcompare a b) as [[| |]|]; reflexivity.
Qed.

(** A comparison that holds has numbers on both sides. *)
Lemma ltb_not_nan a b :
  F32.ltb a b = true -> F32.is_nan a = false /\ F32.is_nan b = false.
Proof.
  destruct a as [sa|sa| |sa ma ea], b as [sb|sb| |sb mb eb]; cbn;
    intros; split; congruence.
Qed.

End F32Order.

(** ** Comparing with [20.0f] is comparing the value with twenty *)

Lemma digits2_pos_bounds m :
  2 ^ (Zpos (digits2_pos m) - 1) <= Zpos m < 2 ^ Zpos (digits2_pos m).
Proof.
  induction m as [p IH|p IH|]; cbn [digits2_pos].
  - rewrite Pos2Z.inj_succ, Z.pow_succ_r by lia.
    replace (Z.succ (Zpos (digits2_pos p)) - 1)
      with (Z.succ (Zpos (digits2_pos p) - 1)) by lia.
    rewrite Z.pow_succ_r by lia. lia.
  - rewrite Pos2Z.inj_succ, Z.pow_succ_r by lia.
    replace (Z.succ (Zpos (digits2_pos p)) - 1)
      with (Z.succ (Zpos (digits2_pos p) - 1)) by lia.
    rewrite Z.pow_succ_r by lia. lia.
  - cbn. lia.
Qed.

(** A valid binary32 has an exponent between -149 and 104 and at most 24
    digits, exactly 24 unless the exponent is the least one. *)
Lemma bounded_binary32 m e :
  bounded F32.prec F32.emax m e = true ->
  -149 <= e <= 104 /\ Zpos (digits2_pos m) <= 24 /\
  (-149 < e -> Zpos (digits2_pos m) = 24).
Proof.
  unfold bounded, canonical_mantissa, fexp, emin, F32.prec, F32.emax. intros H.
  apply andb_true_iff in H as [Hc He].
  apply Z.eqb_eq in Hc. apply Z.leb_le in He. lia.
Qed.

Lemma binary32_scale :
  exists Q, 0 < Q /\ 2 ^ 149 = 1048576 * Q /\
            (forall k, k = 130 -> 2 ^ k = 2 * Q) /\
            (forall k, 0 <= k <= 129 -> 2 ^ k <= Q) /\
            (forall k, 131 <= k -> 4 * Q <= 2 ^ k).
Proof.
  exists (2 ^ 129). split; [vm_compute; reflexivity|].
  split; [vm_compute; reflexivity|]. split; [|split].
  - intros k ->. vm_compute. reflexivity.
  - intros k Hk. apply Z.pow_le_mono_r; lia.
  - intros k Hk. replace (4 * 2 ^ 129) with (2 ^ 131) by (vm_compute; reflexivity).
    apply Z.pow_le_mono_r; lia.
Qed.

(** On a valid zero or finite [float], [f < 20.0f] says that the value of
    [f] is below twenty. *)
Lemma ltb_twenty_units f u :
  F32.valid f = true -> F32.units f = Some u ->
  (F32.ltb f F32.twenty = true <-> u < 20 * 2 ^ 149).
Proof.
  destruct binary32_scale as (Q & HQ & E149 & E130 & Hle & Hge).
  rewrite E149. clear E149. unfold F32.valid, F32.ltb.
  destruct f as [s|s| |s m e]; cbn [F32.units valid_binary]; intros Hv Hu;
    try discriminate; injection Hu as <-.
  - split; [intros _; lia|reflexivity].
  - destruct (bounded_binary32 m e Hv) as (He & Hd & Hn).
    assert (Hm := digits2_pos_bounds m).
    assert (HP : 0 < 2 ^ (e + 149)) by (apply Z.pow_pos_nonneg; lia).
    destruct s.
    + split; [intros _|reflexivity].
      assert (0 < Zpos m * 2 ^ (e + 149)) by (apply Z.mul_pos_pos; lia). lia.
    + unfold SFltb, SFcompare, F32.twenty.
      destruct (Z.compare_spec e (-19)) as [->|Hlt|Hgt].
      * clear HP. rewrite (E130 (-19 + 149) eq_refl).
        rewrite Pos.compare_cont_spec, Pos2Z.inj_compare. unfold Pos.switch_Eq.
        destruct (Z.compare_spec (Zpos m) (Zpos 10485760)) as [C|C|C].
        -- rewrite C. split; [discriminate|intros H; exfalso; lia].
        -- split; [intros _|reflexivity].
           assert (Zpos m * Q < 10485760 * Q)
             by (apply (proj1 (Z.mul_lt_mono_pos_r Q (Zpos m) 10485760 HQ)); exact C).
           lia.
        -- split; [discriminate|intros H; exfalso].
           assert (10485760 * Q < Zpos m * Q)
             by (apply (proj1 (Z.mul_lt_mono_pos_r Q 10485760 (Zpos m) HQ)); exact C).
           lia.
      * split; [intros _|reflexivity].
        assert (H1 : 2 ^ Zpos (digits2_pos m) <= 2 ^ 24)
          by (apply Z.pow_le_mono_r; lia).
        assert (H2 := Hle (e + 149) ltac:(lia)).
        change (2 ^ 24) with 16777216 in H1.
        set (P := 2 ^ (e + 149)) in *. clearbody P. nia.
      * split; [discriminate|intros H; exfalso].
        rewrite (Hn ltac:(lia)) in Hm. change (2 ^ (24 - 1)) with 8388608 in Hm.
        assert (H2 := Hge (e + 149) ltac:(lia)).
        set (P := 2 ^ (e + 149)) in *. clearbody P. nia.
Qed.

(** ** Insertion sort meets the contract of the library's sort *)

Section ListOrder.
Context {A : Type}.
Variable R : A -> A -> Prop.

Lemma StronglySorted_snoc l x :
  StronglySorted R l -> Forall (fun a => R a x) l -> StronglySorted R (l ++ [x]).
Proof.
  induction 1 as [|a l Hs IH Ha]; intros Hx; cbn.
  - constructor; constructor.
  - inversion_clear Hx as [|? ? Hax Hlx]. constructor; [now apply IH|].
    apply Forall_app. split; [assumption|]. now constructor.
Qed.

Lemma StronglySorted_before_last l x :
  StronglySorted R (l ++ [x]) -> Forall (fun a => R a x) l.
Proof.
  induction l as [|a l IH]; cbn; intros H; [constructor|].
  apply StronglySorted_inv in H as [Hs Ha].
  apply Forall_app in Ha as [_ Hx]. inversion_clear Hx.
  constructor; auto.
Qed.

Lemma StronglySorted_rev l :
  StronglySorted (fun a b => R b a) l -> StronglySorted R (rev l).
Proof.
  induction 1 as [|a l Hs IH Ha]; cbn; [constructor|].
  apply StronglySorted_snoc; [assumption|]. now apply Forall_rev.
Qed.

(** Pairwise distinctness does not depend on the arrangement. *)
Lemma ForallOrdPairs_Permutation l l' :
  (forall a b, R a b -> R b a) ->
  Permutation l l' -> ForallOrdPairs R l -> ForallOrdPairs R l'.
Proof.
  intros Hsym. induction 1 as [|x l l' Hp IH|x y l|l l' l'' _ IH1 _ IH2];
    intros H; auto.
  - inversion_clear H as [|? ? Hx Hl]. constructor; auto.
    now apply (Permutation_Forall Hp).
  - inversion_clear H as [|? ? Hy Hxl]. inversion_clear Hxl as [|? ? Hx Hl].
    inversion_clear Hy as [|? ? Hyx Hyl].
    constructor; [constructor; auto|]. now constructor.
Qed.
End ListOrder.

Section InsertionSortCorrect.
Context {A : Type}.
Variable comp : A -> A -> bool.

(** The order [le] that [comp] induces on the elements it orders, [ok]:
    on numbers, [!(a < b)] is [b <= a]. *)
Variable le : A -> A -> Prop.
Variable ok : A -> Prop.
Hypothesis comp_le : forall a b, comp a b = true -> le a b.
Hypothesis not_comp_le : forall a b, ok a -> ok b -> comp a b = false -> le b a.
Hypothesis le_trans : forall a b c, le a b -> le b c -> le a c.

Local Abbreviation desc := (fun a b : A => le b a).

Lemma linear_insert_perm val acc :
  Permutation (val :: acc) (linear_insert comp val acc).
Proof.
  induction acc as [|e r IH]; cbn; [reflexivity|].
  destruct (comp val e); [|reflexivity].
  rewrite perm_swap. now constructor.
Qed.

Lemma linear_insert_desc val acc :
  ok val -> Forall ok acc -> StronglySorted desc acc ->
  StronglySorted desc (linear_insert comp val acc).
Proof.
  intros Hv. induction acc as [|e r IH]; intros Hok Hs; cbn.
  - constructor; constructor.
  - inversion_clear Hok as [|? ? Hoe Hor].
    apply StronglySorted_inv in Hs as [Hs He].
    destruct (comp val e) eqn:E.
    + constructor; [now apply IH|].
      apply (Permutation_Forall (linear_insert_perm val r)).
      constructor; [now apply comp_le|assumption].
    + constructor; [now constructor|].
      assert (Hev : le e val) by now apply not_comp_le.
      constructor; [assumption|].
      eapply Forall_impl; [|exact He]. cbn. intros b Hb. now apply le_trans with e.
Qed.

Lemma insertion_step_perm acc val :
  Permutation (val :: acc) (insertion_step comp acc val).
Proof.
  unfold insertion_step. destruct (rev acc) as [|first rest] eqn:E.
  - assert (Ha : acc = []) by (rewrite <- (rev_involutive acc), E; reflexivity).
    now subst.
  - destruct (comp val first).
    + apply Permutation_cons_append.
    + apply linear_insert_perm.
Qed.

Lemma insertion_step_desc acc val :
  ok val -> Forall ok acc -> StronglySorted desc acc ->
  StronglySorted desc (insertion_step comp acc val).
Proof.
  intros Hv Hok Hs. unfold insertion_step.
  destruct (rev acc) as [|first rest] eqn:E.
  - constructor; constructor.
  - destruct (comp val first) eqn:C; [|now apply linear_insert_desc].
    apply StronglySorted_snoc; [assumption|].
    assert (Ha : acc = rev rest ++ [first])
      by (rewrite <- (rev_involutive acc), E; reflexivity).
    assert (Hvf : le val first) by now apply comp_le.
    rewrite Ha in Hs |- *. apply StronglySorted_before_last in Hs.
    apply Forall_app. split; [|now constructor].
    eapply Forall_impl; [|exact Hs]. cbn. intros b Hb. now apply le_trans with first.
Qed.

Lemma insertion_fold_perm l : forall acc,
  Permutation (l ++ acc) (fold_left (insertion_step comp) l acc).
Proof.
  induction l as [|val l IH]; intros acc; cbn; [reflexivity|].
  rewrite <- IH. rewrite <- (insertion_step_perm acc val).
  apply Permutation_middle.
Qed.

Lemma insertion_fold_desc l : forall acc,
  Forall ok l -> Forall ok acc -> StronglySorted desc acc ->
  StronglySorted desc (fold_left (insertion_step comp) l acc).
Proof.
  induction l as [|val l IH]; intros acc Hl Hok Hs; cbn; [assumption|].
  inversion_clear Hl as [|? ? Hv Hl'].
  apply IH; [assumption| |now apply insertion_step_desc].
  apply (Permutation_Forall (insertion_step_perm acc val)). now constructor.
Qed.

(** The result is a rearrangement of the input, whatever the comparison. *)
Lemma insertion_sort_perm l : Permutation l (insertion_sort comp l).
Proof.
  unfold insertion_sort. rewrite <- Permutation_rev.
  rewrite <- insertion_fold_perm. now rewrite app_nil_r.
Qed.

(** It is in order when the comparison orders the elements. *)
Lemma insertion_sort_sorted l :
  Forall ok l -> StronglySorted le (insertion_sort comp l).
Proof.
  intros Hl. unfold insertion_sort. apply StronglySorted_rev.
  apply insertion_fold_desc; auto; constructor.
Qed.
End InsertionSortCorrect.

(** A vector has one arrangement in order when no two of its elements tie. *)
Section SortedUnique.
Context {A : Type}.
Variable le : A -> A -> Prop.
Variable tie : A -> A -> Prop.
Hypothesis le_antisym : forall a b, le a b -> le b a -> tie a b.

Lemma sorted_permutation_unique l1 : forall l2,
  Permutation l1 l2 ->
  StronglySorted le l1 -> StronglySorted le l2 ->
  ForallOrdPairs (fun a b => ~ tie a b) l1 ->
  l1 = l2.
Proof.
  induction l1 as [|a t IH]; intros l2 Hp H1 H2 Hd.
  - apply Permutation_nil in Hp. now subst.
  - destruct l2 as [|b t'];
      [apply Permutation_sym, Permutation_nil in Hp; discriminate|].
    apply StronglySorted_inv in H1 as [H1 Ha].
    apply StronglySorted_inv in H2 as [H2 Hb].
    inversion_clear Hd as [|? ? Hda Hdt].
    rewrite Forall_forall in Ha, Hb, Hda.
    assert (Hab : a = b).
    { assert (Hin : In a (b :: t')) by (apply (Permutation_in _ Hp); now left).
      destruct Hin as [->|Hin]; [reflexivity|].
      assert (Hin' : In b (a :: t))
        by (apply (Permutation_in _ (Permutation_sym Hp)); now left).
      destruct Hin' as [->|Hin']; [reflexivity|].
      exfalso. apply (Hda b Hin'). apply le_antisym; auto. }
    subst b. f_equal. apply IH; auto.
    now apply Permutation_cons_inv in Hp.
Qed.
End SortedUnique.

(** * The program *)

Lemma print_spec name item w :
  print name item w
  = Done tt {| cin := cin w; cout := cout w ++ print_line name item |}.
Proof.
  unfold print, bind, put, print_line. cbn [cin cout].
  now rewrite <- !app_assoc.
Qed.

Lemma print1_spec item w :
  print1 item w
  = Done tt {| cin := cin w; cout := cout w ++ print1_line item |}.
Proof.
  unfold print1, bind, put, print1_line. cbn [cin cout].
  now rewrite <- !app_assoc.
Qed.

Lemma iota_demo_run fuel w :
  iota_demo (S fuel) w
  = Done tt {| cin := cin w; cout := cout w ++ flat_map item_line iota_items |}.
Proof.
  unfold iota_demo, iota_filter_begin, bind.
  rewrite iota_find_if_stays.
  rewrite iota_advance_plus by (unfold INT_MIN, INT_MAX; cbn; lia).
  now rewrite iota_take_loop_squares by (cbn; lia).
Qed.

(** [main] up to line 79, on any input: the lines of the derived stream
    less its first record appear between the two blocks of type names,
    the squares follow, and [cached_points] is empty. *)
Lemma main_io_run tn_points tn_base tn_begin tn_end ts fuel :
  (length ts < fuel)%nat ->
  main_io tn_points tn_base tn_begin tn_end fuel (initial ts)
  = Done []
      {| cin := exhausted ts;
         cout := header tn_points tn_base ++
                 flat_map line (skipn 1 (derived ts)) ++
                 middle tn_begin tn_end ++
                 flat_map item_line iota_items |}.
Proof.
  intros Hf. unfold main_io, initial.
  repeat (unfold bind at 1; first [rewrite print_spec | rewrite print1_spec];
          cbn [cin cout]).
  unfold bind at 1. fold (good ts). rewrite copy_to_cout_good by assumption.
  unfold bind at 1.
  rewrite copy_to_cached_failed by (try apply failed_exhausted; lia).
  repeat (unfold bind at 1; first [rewrite print_spec | rewrite print1_spec];
          cbn [cin cout]).
  unfold bind. destruct fuel as [|fuel]; [lia|].
  rewrite iota_demo_run. unfold ret. cbn [cin cout].
  unfold header, middle. now rewrite <- !app_assoc.
Qed.

(** ** Lines 34-59: the pipeline over standard input *)

Lemma points_transform_inj p q :
  points_transform p = points_transform q -> p = q.
Proof.
  destruct p as [px py], q as [qx qy]. unfold points_transform. cbn.
  intros H. injection H as Hx _ Hy. now subst.
Qed.

Lemma in_derived ts p :
  In (points_transform p) (derived ts)
  <-> In p (parse ts) /\ points_filter p = true.
Proof.
  unfold derived, yields. cbn [points transform_fun transform_base filter_pred].
  rewrite in_map_iff. split.
  - intros (q & Hq & Hin). apply points_transform_inj in Hq. subst q.
    now apply filter_In in Hin.
  - intros H. exists p. split; [reflexivity|]. now apply filter_In.
Qed.



(** C1, as stated, fails: the only record derived from the input [1 2] is
    not written. *)
Lemma copy_to_cout_omits_first_record :
  exists w,
    copy_to_cout 3 (initial (encode [P_1_2])) = Done tt w /\
    derived (encode [P_1_2]) = [points_transform P_1_2] /\
    cout w <> flat_map line (derived (encode [P_1_2])).
Proof.
  eexists. split; [vm_compute; reflexivity|]. split; [reflexivity|].
  vm_compute. discriminate.
Qed.

(** C1, amended: on an input made of number pairs, line 53 reads all of it
    and writes every derived record but the first, each as its three fields
    separated by single spaces and followed by a newline, in input order. *)
Theorem copy_to_cout_writes_all_but_first (ps : list Point) (fuel : nat) :
  (2 * length ps < fuel)%nat ->
  copy_to_cout fuel (initial (encode ps))
  = Done tt
      {| cin := {| pending := []; failed := true |};
         cout := flat_map line
                   (tl (map points_transform (filter points_filter ps))) |}.
Proof.
  intros Hf. unfold initial. fold (good (encode ps)).
  rewrite copy_to_cout_good by (rewrite length_encode; lia).
  rewrite exhausted_encode. unfold derived, yields. rewrite parse_encode.
  reflexivity.
Qed.

Lemma copy_to_cout_writes_all_but_first_witness :
  (2 * length sample_pairs < 9)%nat /\
  copy_to_cout 9 (initial sample_input)
  = Done tt
      {| cin := {| pending := []; failed := true |};
         cout := line (points_transform P_2_3) ++ line (points_transform P_2_3) |}.
Proof.
  split; [cbn; lia|].
  apply (copy_to_cout_writes_all_but_first sample_pairs 9). cbn. lia.
Defined.

(** C2: a full traversal of [points] yields, for the parsed pairs [(x, y)]
    with [x < 20.0f], in order, the records [(x, x * y, y)]. *)
Theorem points_yield_x_xy_y (ts : list token) (fuel : nat) (o : list out_item) :
  (length ts < fuel)%nat ->
  copy_to_cached fuel {| cin := good ts; cout := o |}
  = Done (map (fun p => {| Point3_x := Point_x p;
                           Point3_y := F32.mul (Point_x p) (Point_y p);
                           Point3_z := Point_y p |})
              (filter (fun p => F32.ltb (Point_x p) F32.twenty) (parse ts)))
         {| cin := exhausted ts; cout := o |}.
Proof. intros Hf. now rewrite copy_to_cached_good. Qed.

Lemma points_yield_x_xy_y_witness :
  (length sample_input < 9)%nat /\
  copy_to_cached 9 (initial sample_input)
  = Done [ {| Point3_x := F32.one; Point3_y := F32.two; Point3_z := F32.two |};
           {| Point3_x := F32.two; Point3_y := F32.six; Point3_z := F32.three |};
           {| Point3_x := F32.two; Point3_y := F32.six; Point3_z := F32.three |} ]
         {| cin := {| pending := []; failed := true |}; cout := [] |}.
Proof.
  split; [cbn; lia|].
  apply (points_yield_x_xy_y sample_input 9 []). cbn. lia.
Defined.

(** C3, as stated, fails: the pair (2, 3) derives a record whose third
    field is 3, not the product 6. *)
Lemma third_field_is_not_the_product :
  exists r w,
    copy_to_cached 3 (initial (encode [P_2_3])) = Done [r] w /\
    Point3_z r <> F32.mul (Point_x P_2_3) (Point_y P_2_3).
Proof.
  do 2 eexists. split; [vm_compute; reflexivity|]. vm_compute. discriminate.
Qed.

(** C3, amended: in every record a traversal of [points] yields, the
    second field is the product of the two source fields and the third
    field is the second source field. *)
Theorem product_is_second_field (ts : list token) (fuel : nat) (o : list out_item) :
  (length ts < fuel)%nat ->
  exists rs,
    copy_to_cached fuel {| cin := good ts; cout := o |}
    = Done rs {| cin := exhausted ts; cout := o |} /\
    Forall2 (fun p r => Point3_y r = F32.mul (Point_x p) (Point_y p) /\
                        Point3_z r = Point_y p)
            (filter points_filter (parse ts)) rs.
Proof.
  intros Hf. eexists. split; [now apply copy_to_cached_good|].
  unfold derived, yields. cbn [points transform_fun transform_base filter_pred].
  induction (filter points_filter (parse ts)) as [|p ps IH]; cbn; constructor; auto.
Qed.

Lemma product_is_second_field_witness :
  (length sample_input < 9)%nat /\
  exists rs,
    copy_to_cached 9 {| cin := good sample_input; cout := [] |}
    = Done rs {| cin := exhausted sample_input; cout := [] |} /\
    Forall2 (fun p r => Point3_y r = F32.mul (Point_x p) (Point_y p) /\
                        Point3_z r = Point_y p)
            (filter points_filter (parse sample_input)) rs.
Proof.
  split; [cbn; lia|].
  apply (product_is_second_field sample_input 9 []). cbn. lia.
Defined.

(** C4: a pair whose [x] is at least 20 fails the filter, and no traversal
    of [points] yields its record, whatever the input. *)
Theorem at_least_twenty_is_excluded
    (ts : list token) (fuel : nat) (o : list out_item) (p : Point) :
  (length ts < fuel)%nat ->
  F32.leb F32.twenty (Point_x p) = true ->
  points_filter p = false /\
  exists rs,
    copy_to_cached fuel {| cin := good ts; cout := o |}
    = Done rs {| cin := exhausted ts; cout := o |} /\
    ~ In (points_transform p) rs.
Proof.
  intros Hf Hx.
  assert (Hp : points_filter p = false) by now apply F32Order.leb_not_ltb.
  split; [assumption|].
  exists (derived ts). split; [now apply copy_to_cached_good|].
  rewrite in_derived. intros [_ H]. congruence.
Qed.

Lemma at_least_twenty_is_excluded_witness :
  (length sample_input < 9)%nat /\
  F32.leb F32.twenty (Point_x P_20_1) = true /\
  points_filter P_20_1 = false /\
  exists rs,
    copy_to_cached 9 {| cin := good sample_input; cout := [] |}
    = Done rs {| cin := exhausted sample_input; cout := [] |} /\
    ~ In (points_transform P_20_1) rs.
Proof.
  split; [cbn; lia|]. split; [reflexivity|].
  apply (at_least_twenty_is_excluded sample_input 9 [] P_20_1);
    [cbn; lia|reflexivity].
Defined.

(** C5: on every input, after line 53 has exhausted [std::cin], the
    traversal of lines 58-59 yields nothing: [main] ends up with an empty
    [cached_points] (and has written what line 53 wrote, nothing more,
    between the type names). *)
Theorem cached_points_is_empty
    (tn_points tn_base tn_begin tn_end : string) (ts : list token) (fuel : nat) :
  (length ts < fuel)%nat ->
  main_io tn_points tn_base tn_begin tn_end fuel (initial ts)
  = Done []
      {| cin := exhausted ts;
         cout := header tn_points tn_base ++
                 flat_map line (tl (derived ts)) ++
                 middle tn_begin tn_end ++
                 flat_map item_line iota_items |}.
Proof. apply main_io_run. Qed.

Lemma cached_points_is_empty_witness :
  (length sample_input < 9)%nat /\
  main_io "P" "B" "I" "S" 9 (initial sample_input)
  = Done []
      {| cin := exhausted sample_input;
         cout := header "P" "B" ++
                 flat_map line (tl (derived sample_input)) ++
                 middle "I" "S" ++
                 flat_map item_line iota_items |}.
Proof.
  split; [cbn; lia|].
  apply (cached_points_is_empty "P" "B" "I" "S" sample_input 9). cbn. lia.
Defined.



(** C7: the loop of lines 73-79 ends, without overflow, having printed
    twenty items: the squares of 2, 3, ..., 21, in that order. *)
Theorem iota_demo_prints_twenty_squares (fuel : nat) (w : world) :
  (0 < fuel)%nat ->
  iota_demo fuel w
  = Done tt {| cin := cin w; cout := cout w ++ flat_map item_line iota_items |} /\
  iota_items
  = [4; 9; 16; 25; 36; 49; 64; 81; 100; 121;
     144; 169; 196; 225; 256; 289; 324; 361; 400; 441] /\
  iota_items
  = map (fun k => k * k)
        [2; 3; 4; 5; 6; 7; 8; 9; 10; 11; 12; 13; 14; 15; 16; 17; 18; 19; 20; 21] /\
  length iota_items = 20%nat.
Proof.
  intros Hf. destruct fuel as [|fuel]; [lia|].
  split; [apply iota_demo_run|]. repeat split.
Qed.

Lemma iota_demo_prints_twenty_squares_witness :
  (0 < 1)%nat /\
  iota_demo 1 (initial [])
  = Done tt {| cin := good []; cout := flat_map item_line iota_items |}.
Proof.
  split; [lia|].
  apply (iota_demo_prints_twenty_squares 1 (initial [])). lia.
Defined.

(** ** Lines 113-119: sorting [cached_points] *)

Lemma z_less_le a b : z_less a b = true -> z_le a b.
Proof. apply F32Order.ltb_leb. Qed.

Lemma not_z_less_le a b :
  z_is_number a -> z_is_number b -> z_less a b = false -> z_le b a.
Proof. apply F32Order.not_ltb_leb. Qed.

Lemma z_le_trans a b c : z_le a b -> z_le b c -> z_le a c.
Proof. apply F32Order.leb_trans. Qed.

Lemma z_le_antisym a b : z_le a b -> z_le b a -> z_tie a b.
Proof. apply F32Order.leb_antisym. Qed.

Lemma z_tie_sym a b : ~ z_tie a b -> ~ z_tie b a.
Proof.
  unfold z_tie. now rewrite (F32Order.eqb_sym (Point3_z b) (Point3_z a)).
Qed.

(** One sort by [z]: a rearrangement, in ascending order of [z] when every
    [z] is a number. *)
Lemma sort_by_z_perm v : Permutation v (insertion_sort z_less v).
Proof. apply insertion_sort_perm. Qed.

Lemma sort_by_z_ascending v :
  Forall z_is_number v -> ascending_by_z (insertion_sort z_less v).
Proof.
  apply (insertion_sort_sorted z_less z_le z_is_number
           z_less_le not_z_less_le z_le_trans).
Qed.

(** On distinct [z], any two arrangements of a vector in ascending order
    of [z] are the same vector: the outcome does not depend on the sorting
    algorithm. *)
Lemma ascending_by_z_unique v r1 r2 :
  distinct_z v ->
  Permutation v r1 -> ascending_by_z r1 ->
  Permutation v r2 -> ascending_by_z r2 ->
  r1 = r2.
Proof.
  intros Hd Hp1 Hs1 Hp2 Hs2.
  apply (sorted_permutation_unique z_le z_tie z_le_antisym); auto.
  - now rewrite <- Hp1.
  - apply (ForallOrdPairs_Permutation _ v r1); auto.
    intros a b. apply z_tie_sym.
Qed.

(** C8: after the three sorting calls the vector holds the records it held
    before, rearranged in ascending order of [z]; the [z] are numbers, as
    the library's sort requires of what it compares. *)
Theorem sorting_steps_sort_by_z (cached_points : list Point3) :
  Forall z_is_number cached_points ->
  Permutation cached_points (sorting_steps cached_points) /\
  ascending_by_z (sorting_steps cached_points).
Proof.
  intros Hn. unfold sorting_steps, sort_member_projection,
    sort_lambda_projection, sort_comparator, rng_sort, std_sort, rng_less.
  fold z_less. change (fun a b => F32.ltb (Point3_z a) (Point3_z b)) with z_less.
  assert (H1 := sort_by_z_perm cached_points).
  assert (H2 := sort_by_z_perm (insertion_sort z_less cached_points)).
  assert (H3 := sort_by_z_perm
                  (insertion_sort z_less (insertion_sort z_less cached_points))).
  split.
  - now rewrite <- H3, <- H2.
  - apply sort_by_z_ascending.
    apply (Permutation_Forall H2), (Permutation_Forall H1), Hn.
Qed.

Lemma sorting_steps_sort_by_z_witness :
  Forall z_is_number sample_vector /\
  Permutation sample_vector (sorting_steps sample_vector) /\
  ascending_by_z (sorting_steps sample_vector).
Proof.
  assert (H : Forall z_is_number sample_vector)
    by (repeat constructor).
  split; [exact H|]. apply (sorting_steps_sort_by_z sample_vector H).
Defined.

(** C9: each of the three formulations, applied to a vector whose [z] are
    numbers, returns a rearrangement of it in ascending order of [z]; when
    no two [z] are equal, the three return the same vector. *)
Theorem three_sorts_agree (v : list Point3) :
  Forall z_is_number v ->
  (Permutation v (sort_comparator v) /\ ascending_by_z (sort_comparator v)) /\
  (Permutation v (sort_lambda_projection v) /\
   ascending_by_z (sort_lambda_projection v)) /\
  (Permutation v (sort_member_projection v) /\
   ascending_by_z (sort_member_projection v)) /\
  (distinct_z v ->
   sort_comparator v = sort_lambda_projection v /\
   sort_lambda_projection v = sort_member_projection v).
Proof.
  intros Hn.
  assert (Hc : Permutation v (sort_comparator v) /\
               ascending_by_z (sort_comparator v))
    by (split; [apply sort_by_z_perm|now apply sort_by_z_ascending]).
  assert (Hl : Permutation v (sort_lambda_projection v) /\
               ascending_by_z (sort_lambda_projection v))
    by (split; [apply sort_by_z_perm|now apply sort_by_z_ascending]).
  assert (Hm : Permutation v (sort_member_projection v) /\
               ascending_by_z (sort_member_projection v))
    by (split; [apply sort_by_z_perm|now apply sort_by_z_ascending]).
  split; [exact Hc|]. split; [exact Hl|]. split; [exact Hm|].
  intros Hd. split; apply (ascending_by_z_unique v); tauto.
Qed.

Lemma three_sorts_agree_witness :
  Forall z_is_number sample_vector /\
  distinct_z sample_vector /\
  sort_comparator sample_vector
  = [z_only F32.one; z_only F32.two; z_only F32.three; z_only F32.six] /\
  sort_comparator sample_vector = sort_lambda_projection sample_vector /\
  sort_lambda_projection sample_vector = sort_member_projection sample_vector.
Proof.
  assert (H : Forall z_is_number sample_vector) by (repeat constructor).
  assert (Hd : distinct_z sample_vector)
    by (repeat constructor; unfold z_tie; cbn; discriminate).
  split; [exact H|]. split; [exact Hd|]. split; [reflexivity|].
  apply (three_sorts_agree sample_vector H). exact Hd.
Defined.

(** C10: a traversal of [points] yields the record of a pair exactly when
    the pair was read and its [x] compares below [20.0f], which for a valid
    finite [x] says that its value is below twenty; a pair whose [x] is NaN
    is not yielded, although [20.0f <= x] is false for it as well. *)
Theorem filter_keeps_iff_below_twenty
    (ts : list token) (fuel : nat) (o : list out_item) :
  (length ts < fuel)%nat ->
  exists rs,
    copy_to_cached fuel {| cin := good ts; cout := o |}
    = Done rs {| cin := exhausted ts; cout := o |} /\
    (forall p, In (points_transform p) rs
               <-> In p (parse ts) /\ F32.ltb (Point_x p) F32.twenty = true) /\
    (forall p u, F32.valid (Point_x p) = true ->
                 F32.units (Point_x p) = Some u ->
                 (In (points_transform p) rs
                  <-> In p (parse ts) /\ u < 20 * 2 ^ 149)) /\
    (forall p, F32.is_nan (Point_x p) = true ->
               ~ In (points_transform p) rs /\
               F32.leb F32.twenty (Point_x p) = false).
Proof.
  intros Hf. exists (derived ts). split; [now apply copy_to_cached_good|].
  split; [|split].
  - intros p. apply in_derived.
  - intros p u Hv Hu. rewrite in_derived. unfold points_filter.
    now rewrite (ltb_twenty_units (Point_x p) u Hv Hu).
  - intros p Hp. destruct p as [[sx|sx| |sx mx ex] py]; try discriminate.
    split; [|reflexivity]. rewrite in_derived. cbn. intros [_ H]. discriminate.
Qed.

Lemma filter_keeps_iff_below_twenty_witness :
  (length (encode [P_nan_1; P_2_3]) < 5)%nat /\
  exists rs,
    copy_to_cached 5 {| cin := good (encode [P_nan_1; P_2_3]); cout := [] |}
    = Done rs {| cin := exhausted (encode [P_nan_1; P_2_3]); cout := [] |} /\
    (forall p, In (points_transform p) rs
               <-> In p (parse (encode [P_nan_1; P_2_3])) /\
                   F32.ltb (Point_x p) F32.twenty = true) /\
    (forall p u, F32.valid (Point_x p) = true ->
                 F32.units (Point_x p) = Some u ->
                 (In (points_transform p) rs
                  <-> In p (parse (encode [P_nan_1; P_2_3])) /\ u < 20 * 2 ^ 149)) /\
    (forall p, F32.is_nan (Point_x p) = true ->
               ~ In (points_transform p) rs /\
               F32.leb F32.twenty (Point_x p) = false).
Proof.
  split; [cbn; lia|].
  apply (filter_keeps_iff_below_twenty (encode [P_nan_1; P_2_3]) 5 []). cbn. lia.
Defined.

(** * Further properties of the code *)

(** ** [rng::find] (lines 83-108) *)

Section FindSpec.
Context {A : Type}.
Variable eqb : A -> A -> bool.
Hypothesis eqb_spec : forall x y, eqb x y = true <-> x = y.

Lemma eqb_false_neq x y : eqb x y = false -> Some x <> Some y.
Proof.
  intros H E. injection E as E. apply eqb_spec in E. congruence.
Qed.

(** Forwards through a container, [rng::find] stops on the first position
    that holds the value, or past the end. *)
Lemma array_find_spec fuel : forall v i value w,
  (i <= length v)%nat -> (length v - i < fuel)%nat ->
  exists j,
    rng_find eqb fuel {| elements := v; position := i |} (array_end v) value w
    = Done {| elements := v; position := j |} w /\
    (i <= j <= length v)%nat /\
    (forall k, (i <= k < j)%nat -> nth_error v k <> Some value) /\
    ((j < length v)%nat -> nth_error v j = Some value).
Proof.
  induction fuel as [|fuel IH]; intros v i value w Hi Hf; [lia|].
  cbn [rng_find iter_same iter_deref iter_incr array_Iterator array_end position].
  destruct (Nat.eqb_spec i (length v)) as [->|Hne].
  - exists (length v). unfold ret. repeat split; try lia.
  - unfold bind at 1, array_deref. cbn [elements position].
    destruct (nth_error v i) as [x|] eqn:Ex;
      [|apply nth_error_None in Ex; lia].
    unfold ret at 1. destruct (eqb x value) eqn:Eq.
    + apply eqb_spec in Eq. subst x. exists i. unfold ret.
      repeat split; try lia. intros _. exact Ex.
    + unfold bind, array_incr. cbn [elements position].
      assert (Hlt : (i <? length v)%nat = true) by (apply Nat.ltb_lt; lia).
      rewrite Hlt. unfold ret at 1.
      destruct (IH v (S i) value w ltac:(lia) ltac:(lia)) as (j & Hj & Hr & Hn & Hv).
      exists j. split; [exact Hj|]. split; [lia|]. split; [|exact Hv].
      intros k Hk. destruct (Nat.eq_dec k i) as [->|Hki].
      * rewrite Ex. now apply eqb_false_neq.
      * apply Hn. lia.
Qed.

(** Backwards, from the reverse iterator whose [current] is at position
    [c], it stops on the last position before [c] that holds the value
    ([current] one further), or on the reverse end, [current] at 0. *)
Lemma reverse_find_spec fuel : forall v c value w,
  (c <= length v)%nat -> (c < fuel)%nat ->
  exists c',
    rng_find eqb fuel {| current := {| elements := v; position := c |} |}
             (reverse_end v) value w
    = Done {| current := {| elements := v; position := c' |} |} w /\
    (c' <= c)%nat /\
    (forall k, (c' <= k < c)%nat -> nth_error v k <> Some value) /\
    (forall k, c' = S k -> nth_error v k = Some value).
Proof.
  induction fuel as [|fuel IH]; intros v c value w Hc Hf; [lia|].
  cbn [rng_find iter_same iter_deref iter_incr reverse_Iterator reverse_end
       array_begin current position].
  destruct c as [|c].
  - exists 0%nat. cbn [Nat.eqb]. unfold ret. repeat split; lia.
  - cbn [Nat.eqb]. unfold bind at 1, reverse_deref, bind at 1, array_decr.
    cbn [current elements position]. unfold ret at 1, array_deref.
    cbn [elements position].
    destruct (nth_error v c) as [x|] eqn:Ex;
      [|apply nth_error_None in Ex; lia].
    unfold ret at 1. destruct (eqb x value) eqn:Eq.
    + apply eqb_spec in Eq. subst x. exists (S c). unfold ret.
      repeat split; try lia. intros k Hk. injection Hk as <-. exact Ex.
    + unfold bind at 1, reverse_incr, bind at 1, array_decr.
      cbn [current elements position]. unfold ret at 1, ret at 1.
      destruct (IH v c value w ltac:(lia) ltac:(lia)) as (c' & Hj & Hr & Hn & Hv).
      exists c'. split; [exact Hj|]. split; [lia|]. split; [|exact Hv].
      intros k Hk. destruct (Nat.eq_dec k c) as [->|Hkc].
      * rewrite Ex. now apply eqb_false_neq.
      * apply Hn. lia.
Qed.
End FindSpec.

Lemma Z_eqb_spec x y : Z.eqb x y = true <-> x = y.
Proof. apply Z.eqb_eq. Qed.

Lemma ascii_eqb_spec x y : Ascii.eqb x y = true <-> x = y.
Proof. apply Ascii.eqb_eq. Qed.

Lemma in_removelast_nth_error (v : list Z) (x : Z) :
  In x (removelast v)
  <-> exists k, (k < length v - 1)%nat /\ nth_error v k = Some x.
Proof.
  rewrite removelast_firstn_len.
  replace (pred (length v)) with (length v - 1)%nat by lia. split.
  - intros H. apply In_nth_error in H as [k Hk]. exists k.
    rewrite nth_error_firstn in Hk.
    destruct (Nat.ltb_spec k (length v - 1)); [now split|discriminate].
  - intros (k & Hk & Hx). apply (nth_error_In _ k).
    rewrite nth_error_firstn.
    destruct (Nat.ltb_spec k (length v - 1)); [assumption|lia].
Qed.

Lemma nth_error_list_ascii_of_string s : forall k,
  nth_error (list_ascii_of_string s) k = String.get k s.
Proof.
  induction s as [|c s IH]; intros [|k]; cbn; auto.
Qed.

Lemma length_list_ascii_of_string s :
  length (list_ascii_of_string s) = String.length s.
Proof. induction s as [|c s IH]; cbn; auto. Qed.

(** X1: [rng::find(v | views::reverse | views::drop(1), value)] never looks
    at the last element of [v]: it stops on the last of the other
    positions that holds [value], and then dereferences to [value];
    when none of them does it returns the end of the view, and
    dereferencing that reads before the vector, which is undefined. *)
Theorem legit_iter_dereferences_iff
    (v : list Z) (value : Z) (fuel : nat) (w : world) :
  (length v < fuel)%nat ->
  exists it,
    find_legit fuel v value w = Done it w /\
    reverse_deref it w
    = (if existsb (Z.eqb value) (removelast v) then Done value w else Undefined) /\
    (forall k, (position (current it) <= k < length v - 1)%nat ->
               nth_error v k <> Some value).
Proof.
  intros Hf. unfold find_legit, reverse_drop_begin.
  replace (length v - Nat.min 1 (length v))%nat with (length v - 1)%nat by lia.
  destruct (reverse_find_spec Z.eqb Z_eqb_spec fuel v (length v - 1) value w
              ltac:(lia) ltac:(lia)) as (c' & Hr & Hc & Hn & Hv).
  eexists. split; [exact Hr|]. cbn [current position]. split; [|exact Hn].
  unfold reverse_deref, bind, array_decr, array_deref. cbn [current elements position].
  destruct c' as [|k].
  - destruct (existsb (Z.eqb value) (removelast v)) eqn:E; [|reflexivity].
    apply existsb_exists in E as (x & Hx & Hxv). apply Z.eqb_eq in Hxv. subst x.
    apply in_removelast_nth_error in Hx as (k & Hk & Hx).
    exfalso. apply (Hn k); [lia|assumption].
  - unfold ret at 1. cbn [elements position]. rewrite (Hv k eq_refl).
    assert (E : existsb (Z.eqb value) (removelast v) = true).
    { apply existsb_exists. exists value. split; [|apply Z.eqb_refl].
      apply in_removelast_nth_error. exists k. split; [lia|now apply Hv]. }
    now rewrite E.
Qed.

Lemma legit_iter_dereferences_iff_witness :
  (length vvv < 4)%nat /\
  exists it,
    find_legit 4 vvv 3 (initial []) = Done it (initial []) /\
    reverse_deref it (initial []) = Undefined /\
    (forall k, (position (current it) <= k < length vvv - 1)%nat ->
               nth_error vvv k <> Some 3).
Proof.
  split; [cbn; lia|].
  apply (legit_iter_dereferences_iff vvv 3 4 (initial [])). cbn. lia.
Defined.

(** X2: [rng::find(std::string_view(s), c)] returns the position of the
    first [c] in [s], or the end when [s] has none; the result can be
    dereferenced exactly in the first case, and then gives [c]. *)
Theorem string_view_find_first_occurrence
    (s : string) (c : ascii) (fuel : nat) (w : world) :
  (String.length s < fuel)%nat ->
  exists j,
    find_string_view fuel s c w
    = Done {| elements := list_ascii_of_string s; position := j |} w /\
    (j <= String.length s)%nat /\
    (forall k, (k < j)%nat -> String.get k s <> Some c) /\
    ((j < String.length s)%nat -> String.get j s = Some c) /\
    array_deref {| elements := list_ascii_of_string s; position := j |} w
    = (if (j <? String.length s)%nat then Done c w else Undefined).
Proof.
  intros Hf. unfold find_string_view, array_begin.
  destruct (array_find_spec Ascii.eqb ascii_eqb_spec fuel
              (list_ascii_of_string s) 0 c w ltac:(lia)
              ltac:(rewrite length_list_ascii_of_string; lia))
    as (j & Hr & Hj & Hn & Hv).
  rewrite length_list_ascii_of_string in Hj, Hv.
  exists j. split; [exact Hr|]. split; [lia|]. split; [|split].
  - intros k Hk. rewrite <- nth_error_list_ascii_of_string. apply Hn. lia.
  - intros Hlt. rewrite <- nth_error_list_ascii_of_string. now apply Hv.
  - unfold array_deref. cbn [elements position].
    destruct (Nat.ltb_spec j (String.length s)) as [Hlt|Hge].
    + now rewrite (Hv Hlt).
    + assert (E : nth_error (list_ascii_of_string s) j = None)
        by (apply nth_error_None; rewrite length_list_ascii_of_string; lia).
      now rewrite E.
Qed.

Lemma string_view_find_first_occurrence_witness :
  (String.length "abacaba" < 8)%nat /\
  exists j,
    find_string_view 8 "abacaba" "c"%char (initial [])
    = Done {| elements := list_ascii_of_string "abacaba"; position := j |}
           (initial []) /\
    (j <= String.length "abacaba")%nat /\
    (forall k, (k < j)%nat -> String.get k "abacaba" <> Some "c"%char) /\
    ((j < String.length "abacaba")%nat -> String.get j "abacaba" = Some "c"%char) /\
    array_deref {| elements := list_ascii_of_string "abacaba"; position := j |}
                (initial [])
    = (if (j <? String.length "abacaba")%nat then Done "c"%char (initial [])
       else Undefined).
Proof.
  split; [cbn; lia|].
  apply (string_view_find_first_occurrence "abacaba" "c"%char 8 (initial [])).
  cbn. lia.
Defined.

(** The searches of lines 83-103 and the print of line 88 complete:
    [legit_iter] is the end of the reversed and dropped view, and
    [string_view_iter] stands on the [c] at position 3. *)
Lemma find_demo_iterators_run tn_ub fuel w :
  (7 < fuel)%nat ->
  find_demo_iterators tn_ub fuel w
  = Done (reverse_end vvv,
          {| elements := list_ascii_of_string "abacaba"; position := 3 |})
         {| cin := cin w; cout := cout w ++ print_line "ub_iter" (OStr tn_ub) |}.
Proof.
  intros Hf. do 8 (destruct fuel as [|fuel]; [lia|]). clear Hf.
  unfold find_demo_iterators. unfold bind at 1.
  destruct (array_find_spec Z.eqb Z_eqb_spec (S (S (S (S (S (S (S (S fuel))))))))
              [1; 2; 3; 4] 0 3 w ltac:(cbn; lia) ltac:(cbn; lia))
    as (j & Hr & _).
  unfold array_begin in *. rewrite Hr. unfold bind at 1. rewrite print_spec.
  reflexivity.
Qed.

(** X3: whatever the input, [main] completes lines 34-106, with
    [legit_iter] the end of [vvv | views::reverse | views::drop(1)] (the 3
    it looks for is the element [views::drop(1)] removed) and
    [string_view_iter] on the [c] of the text; the dereference of
    [legit_iter] in line 107 is then undefined, before anything of that
    line is written, although line 108 alone would be defined; so [main]
    as a whole is undefined. *)
Theorem main_dereferences_the_end_iterator
    (tn_points tn_base tn_begin tn_end tn_ub : string)
    (ts : list token) (fuel : nat) :
  (length ts < fuel)%nat -> (7 < fuel)%nat ->
  bind (main_io tn_points tn_base tn_begin tn_end fuel)
       (fun _ => find_demo_iterators tn_ub fuel) (initial ts)
  = Done (reverse_end vvv,
          {| elements := list_ascii_of_string "abacaba"; position := 3 |})
         (after_line_106 tn_points tn_base tn_begin tn_end tn_ub ts) /\
  reverse_deref (reverse_end vvv)
    (after_line_106 tn_points tn_base tn_begin tn_end tn_ub ts)
  = Undefined /\
  print_legit (reverse_end vvv)
    (after_line_106 tn_points tn_base tn_begin tn_end tn_ub ts)
  = Undefined /\
  print_string_view_iter
    {| elements := list_ascii_of_string "abacaba"; position := 3 |}
    (after_line_106 tn_points tn_base tn_begin tn_end tn_ub ts)
  = Done tt
      {| cin := exhausted ts;
         cout := cout (after_line_106 tn_points tn_base tn_begin tn_end tn_ub ts)
                 ++ print_line "string_view_iter" (OStr "c") |} /\
  bind (main_io tn_points tn_base tn_begin tn_end fuel)
       (fun _ => find_demo tn_ub fuel) (initial ts)
  = Undefined.
Proof.
  intros Hf H8.
  assert (H106 :
    bind (main_io tn_points tn_base tn_begin tn_end fuel)
         (fun _ => find_demo_iterators tn_ub fuel) (initial ts)
    = Done (reverse_end vvv,
            {| elements := list_ascii_of_string "abacaba"; position := 3 |})
           (after_line_106 tn_points tn_base tn_begin tn_end tn_ub ts)).
  { unfold bind. rewrite main_io_run by assumption.
    now rewrite find_demo_iterators_run by assumption. }
  split; [exact H106|]. split; [reflexivity|]. split; [reflexivity|].
  split.
  - unfold print_string_view_iter, bind, array_deref. cbn [elements position].
    cbn [list_ascii_of_string nth_error]. unfold ret. now rewrite print_spec.
  - unfold find_demo. unfold bind at 1.
    unfold bind in H106.
    destruct (main_io tn_points tn_base tn_begin tn_end fuel (initial ts))
      as [cached w| |]; try discriminate.
    unfold bind at 1. rewrite H106. reflexivity.
Qed.

Lemma main_dereferences_the_end_iterator_witness :
  (length sample_input < 9)%nat /\ (7 < 9)%nat /\
  bind (main_io "P" "B" "I" "S" 9) (fun _ => find_demo_iterators "D" 9)
       (initial sample_input)
  = Done (reverse_end vvv,
          {| elements := list_ascii_of_string "abacaba"; position := 3 |})
         (after_line_106 "P" "B" "I" "S" "D" sample_input) /\
  reverse_deref (reverse_end vvv) (after_line_106 "P" "B" "I" "S" "D" sample_input)
  = Undefined /\
  bind (main_io "P" "B" "I" "S" 9) (fun _ => find_demo "D" 9) (initial sample_input)
  = Undefined.
Proof.
  split; [cbn; lia|]. split; [lia|].
  destruct (main_dereferences_the_end_iterator "P" "B" "I" "S" "D" sample_input 9)
    as (H1 & H2 & _ & _ & H5); [cbn; lia|lia|].
  split; [exact H1|]. split; [exact H2|exact H5].
Defined.

(** ** [operator>>] on [Point] (lines 24-26) *)

(** X4: on a stream in good state the extraction succeeds exactly when the
    next two fields are numbers; it then consumes those two and stores
    them as [x] and [y]. *)
Theorem extraction_succeeds_iff_two_numbers (ts : list token) (p : Point) :
  failed (fst (extract_Point (good ts) p)) = false
  <-> exists a b r,
        ts = Num a :: Num b :: r /\
        extract_Point (good ts) p = (good r, {| Point_x := a; Point_y := b |}).
Proof.
  split.
  - destruct ts as [|[a| |n] [|[b| |n'] r]]; cbn; intros H; try discriminate.
    exists a, b, r. split; reflexivity.
  - intros (a & b & r & -> & ->). reflexivity.
Qed.

(** X5: the extraction is not all-or-nothing: when the first field is a
    number and the second is missing or does not convert, the stream fails
    but [point.x] has already been overwritten with the number read. *)
Theorem failed_extraction_overwrites_x (a : float) (r : list token) (p : Point) :
  (forall b r', r <> Num b :: r') ->
  failed (fst (extract_Point (good (Num a :: r)) p)) = true /\
  Point_x (snd (extract_Point (good (Num a :: r)) p)) = a.
Proof.
  intros Hr. destruct r as [|[b| |n] r']; cbn; auto.
  exfalso. now apply (Hr b r').
Qed.

Lemma failed_extraction_overwrites_x_witness :
  (forall b r', [Junk] <> Num b :: r') /\
  failed (fst (extract_Point (good [Num F32.one; Junk]) P_2_3)) = true /\
  Point_x (snd (extract_Point (good [Num F32.one; Junk]) P_2_3)) = F32.one.
Proof.
  assert (H : forall b r', [Junk] <> Num b :: r') by (intros b r'; discriminate).
  split; [exact H|].
  apply (failed_extraction_overwrites_x F32.one [Junk] P_2_3 H).
Defined.

(** X6: the extraction only ever consumes: what is pending afterwards is
    what was pending less at most two leading fields; a stream that had
    failed is left as it was, with the point untouched, and no extraction
    brings a failed stream back to good state. *)
Theorem extraction_only_consumes (s : istream) (p : Point) :
  (exists k, (k <= 2)%nat /\
             pending (fst (extract_Point s p)) = skipn k (pending s)) /\
  (failed s = true -> extract_Point s p = (s, p)) /\
  (failed (fst (extract_Point s p)) = false -> failed s = false).
Proof.
  split; [|split].
  - destruct s as [ts [|]].
    + exists 0%nat. split; [lia|]. now rewrite extract_Point_failed.
    + destruct ts as [|[a| |n] [|[b| |n'] r]]; cbn;
        first [ exists 0%nat; split; [lia|reflexivity]
              | exists 1%nat; split; [lia|reflexivity]
              | exists 2%nat; split; [lia|reflexivity] ].
  - apply extract_Point_failed.
  - destruct (failed s) eqn:E; [|reflexivity].
    rewrite (extract_Point_failed s p E). cbn [fst]. congruence.
Qed.

(** ** Line 53 at the edges *)

Lemma parse_unpaired ps a : parse (encode ps ++ [Num a]) = ps.
Proof.
  induction ps as [|[x y] ps IH]; [reflexivity|].
  change (parse (Num x :: Num y :: (encode ps ++ [Num a]))
          = {| Point_x := x; Point_y := y |} :: ps).
  cbn [parse]. now rewrite IH.
Qed.

Lemma exhausted_unpaired ps a :
  exhausted (encode ps ++ [Num a]) = {| pending := []; failed := true |}.
Proof.
  induction ps as [|[x y] ps IH]; [reflexivity|].
  change (exhausted (Num x :: Num y :: (encode ps ++ [Num a]))
          = {| pending := []; failed := true |}).
  cbn [exhausted]. exact IH.
Qed.

(** X7: a last number without a partner is read and thrown away: line 53
    writes what it writes on the pairs before it and leaves nothing
    pending. *)
Theorem unpaired_last_number_is_discarded
    (ps : list Point) (a : float) (fuel : nat) :
  (2 * length ps + 1 < fuel)%nat ->
  copy_to_cout fuel (initial (encode ps ++ [Num a]))
  = Done tt
      {| cin := {| pending := []; failed := true |};
         cout := flat_map line
                   (tl (map points_transform (filter points_filter ps))) |}.
Proof.
  intros Hf. unfold initial.
  rewrite copy_to_cout_good
    by (rewrite length_app, length_encode; cbn [length]; lia).
  rewrite exhausted_unpaired. unfold derived, yields. rewrite parse_unpaired.
  reflexivity.
Qed.

Lemma unpaired_last_number_is_discarded_witness :
  (2 * length sample_pairs + 1 < 10)%nat /\
  copy_to_cout 10 (initial (sample_input ++ [Num F32.one]))
  = Done tt
      {| cin := {| pending := []; failed := true |};
         cout := line (points_transform P_2_3) ++ line (points_transform P_2_3) |}.
Proof.
  split; [cbn; lia|].
  apply (unpaired_last_number_is_discarded sample_pairs F32.one 10). cbn. lia.
Defined.

Lemma flat_map_line_nil rs : flat_map line rs = [] <-> rs = [].
Proof.
  split; [|now intros ->]. destruct rs as [|r rs]; [reflexivity|discriminate].
Qed.

(** X8: line 53 writes nothing at all exactly when at most one of the
    pairs read has [x < 20.0f]: the first record that passes is the one
    [views::drop(1)] removes. *)
Theorem line_53_writes_nothing_iff
    (ts : list token) (fuel : nat) (o : list out_item) :
  (length ts < fuel)%nat ->
  exists w,
    copy_to_cout fuel {| cin := good ts; cout := o |} = Done tt w /\
    (cout w = o <-> (length (filter points_filter (parse ts)) <= 1)%nat).
Proof.
  intros Hf. eexists. split; [now apply copy_to_cout_good|].
  cbn [cout]. unfold derived, yields.
  cbn [points transform_fun transform_base filter_pred].
  destruct (filter points_filter (parse ts)) as [|p [|q ps]]; cbn [map skipn length].
  - cbn. rewrite app_nil_r. split; [lia|reflexivity].
  - cbn. rewrite app_nil_r. split; [lia|reflexivity].
  - split; [|lia]. intros H. exfalso.
    rewrite <- (app_nil_r o) in H at 2. apply app_inv_head in H.
    apply flat_map_line_nil in H. discriminate.
Qed.

Lemma line_53_writes_nothing_iff_witness :
  (length (encode [P_20_1; P_2_3; P_20_1]) < 7)%nat /\
  exists w,
    copy_to_cout 7 {| cin := good (encode [P_20_1; P_2_3; P_20_1]); cout := [] |}
    = Done tt w /\
    (cout w = []
     <-> (length (filter points_filter (parse (encode [P_20_1; P_2_3; P_20_1])))
          <= 1)%nat).
Proof.
  split; [cbn; lia|].
  apply (line_53_writes_nothing_iff (encode [P_20_1; P_2_3; P_20_1]) 7 []).
  cbn. lia.
Defined.

(** ** The sorting calls together (lines 113-119) *)

(** X9: once the first call has sorted the vector, the second and the
    third leave it as it is, when no two [z] are equal: nothing sorted is
    rearranged. *)
Theorem later_sorts_change_nothing (v : list Point3) :
  Forall z_is_number v -> distinct_z v ->
  sort_lambda_projection (sort_comparator v) = sort_comparator v /\
  sorting_steps v = sort_comparator v.
Proof.
  intros Hn Hd.
  assert (P1 : Permutation v (sort_comparator v)) by apply sort_by_z_perm.
  assert (S1 : ascending_by_z (sort_comparator v)) by now apply sort_by_z_ascending.
  assert (N1 : Forall z_is_number (sort_comparator v))
    by apply (Permutation_Forall P1 Hn).
  assert (P2 : Permutation (sort_comparator v)
                 (sort_lambda_projection (sort_comparator v)))
    by apply sort_by_z_perm.
  assert (S2 : ascending_by_z (sort_lambda_projection (sort_comparator v)))
    by now apply sort_by_z_ascending.
  assert (E2 : sort_lambda_projection (sort_comparator v) = sort_comparator v).
  { apply (ascending_by_z_unique v);
      [exact Hd|now rewrite <- P2|exact S2|exact P1|exact S1]. }
  split; [exact E2|]. unfold sorting_steps. rewrite E2.
  apply (ascending_by_z_unique v);
    [exact Hd| |now apply sort_by_z_ascending|exact P1|exact S1].
  rewrite P1 at 1. apply sort_by_z_perm.
Qed.

Lemma later_sorts_change_nothing_witness :
  Forall z_is_number sample_vector /\ distinct_z sample_vector /\
  sort_lambda_projection (sort_comparator sample_vector)
  = sort_comparator sample_vector /\
  sorting_steps sample_vector = sort_comparator sample_vector.
Proof.
  assert (H : Forall z_is_number sample_vector) by (repeat constructor).
  assert (Hd : distinct_z sample_vector)
    by (repeat constructor; unfold z_tie; cbn; discriminate).
  split; [exact H|]. split; [exact Hd|].
  apply (later_sorts_change_nothing sample_vector H Hd).
Defined.

(** X10: the sorted vector does not depend on how the records were
    arranged before, when no two [z] are equal. *)
Theorem sort_ignores_arrangement (v v' : list Point3) :
  Permutation v v' -> Forall z_is_number v -> distinct_z v ->
  sort_comparator v = sort_comparator v'.
Proof.
  intros Hp Hn Hd. apply (ascending_by_z_unique v); auto.
  - apply sort_by_z_perm.
  - now apply sort_by_z_ascending.
  - rewrite Hp at 1. apply sort_by_z_perm.
  - apply sort_by_z_ascending. apply (Permutation_Forall Hp Hn).
Qed.

Lemma sort_ignores_arrangement_witness :
  Permutation sample_vector (rev sample_vector) /\
  Forall z_is_number sample_vector /\ distinct_z sample_vector /\
  sort_comparator sample_vector = sort_comparator (rev sample_vector).
Proof.
  assert (Hp : Permutation sample_vector (rev sample_vector))
    by apply Permutation_rev.
  assert (H : Forall z_is_number sample_vector) by (repeat constructor).
  assert (Hd : distinct_z sample_vector)
    by (repeat constructor; unfold z_tie; cbn; discriminate).
  split; [exact Hp|]. split; [exact H|]. split; [exact Hd|].
  apply (sort_ignores_arrangement sample_vector (rev sample_vector) Hp H Hd).
Defined.

(** ** The squaring lambda (line 75) *)

(** X11: [v * v] is an [int] exactly for [v] from -46340 to 46340; beyond,
    the multiplication overflows and the lambda has undefined behaviour. *)
Theorem square_is_defined_iff (v : Z) (w : world) :
  iota_transform v w
  = (if Z.abs v <=? 46340 then Done (v * v) w else Undefined).
Proof.
  unfold iota_transform, int_result, INT_MIN, INT_MAX.
  destruct (Z.leb_spec (Z.abs v) 46340) as [H|H].
  - assert (H1 : (-2147483648 <=? v * v) = true) by (apply Z.leb_le; nia).
    assert (H2 : (v * v <=? 2147483647) = true) by (apply Z.leb_le; nia).
    now rewrite H1, H2.
  - assert (H2 : (v * v <=? 2147483647) = false) by (apply Z.leb_gt; nia).
    rewrite H2, andb_false_r. reflexivity.
Qed.
